(** * Adjacency-list and materialized-path trees, and the two converters

    A shallow embedding of [src/main.py]:

    - Python [str] is [string], with the 256 characters of [ascii] for
      the code points; [s1 + s2] is [String.append], [==] is
      [String.eqb], [<] on strings (used by [list.sort]) is the
      lexicographic order [String.leb], [startswith] is [String.prefix],
      [split] is [py_split].
    - A Python [dict] is an association list in insertion order with
      unique keys ([dict_get], [dict_set]); iteration yields the entries
      in list order.
    - [raise ValueError(...)] is [Raise e]; the [error] type has one
      constructor per kind of failure, named as in the specification.
      A method that mutates its object returns the object as the call
      leaves it together with the outcome ([add_node_st]).
    - [list.sort] is stable; it is modelled by a stable insertion sort,
      which returns the same list as any other stable sort.
    - The recursive closure [dfs_build] receives fuel; [convert_al_to_mp]
      gives it as much fuel as the input has nodes, and the theorems show
      that this is always enough for trees built by [add_node]. Python's
      interpreter recursion limit is not modelled. *)

From Stdlib Require Import List String Ascii Bool Arith NArith Lia.
From Stdlib Require Import Permutation Sorted Relations.
Import ListNotations.

Set Implicit Arguments.

Infix "+++" := String.append (at level 60, right associativity).

(** ** Errors and results *)

Inductive error : Type :=
| DuplicateIdentifier (node_id : string)
    (* ValueError "Node {node_id} already exists" *)
| UnknownParent (parent_id : string)
    (* ValueError "Parent {parent_id} does not exist" *)
| MalformedPath (node_id path : string)
    (* ValueError "Path must start with separator ..." and
       ValueError "Bad path for node {node_id}: {path}" *)
| PathIdentityMismatch (node_id last : string)
    (* ValueError "Path mismatch: node_id=... but last in path is ..." *)
| EmptySeparator
    (* ValueError "empty separator", raised by str.split *)
| KeyError (key : string).
    (* al.nodes[node_id] on a missing key *)

Inductive result (A : Type) : Type :=
| Ok (a : A)
| Raise (e : error)
| OutOfFuel.

Arguments Ok {A} a.
Arguments Raise {A} e.
Arguments OutOfFuel {A}.

Definition bind {A B : Type} (m : result A) (k : A -> result B) : result B :=
  match m with
  | Ok a => k a
  | Raise e => Raise e
  | OutOfFuel => OutOfFuel
  end.

Notation "x <- m ;; k" := (bind m (fun x => k))
  (at level 61, m at next level, right associativity).

(** The state of a mutated object is kept only when the call returned. *)
Definition commit {S : Type} (r : S * result unit) : result S :=
  _ <- snd r ;; Ok (fst r).

(** [for x in l: s = f x s], stopping at the first exception. *)
Fixpoint foldM {A S : Type} (f : A -> S -> result S) (l : list A) (s : S)
  : result S :=
  match l with
  | [] => Ok s
  | x :: l' => s' <- f x s ;; foldM f l' s'
  end.

(** [[f x for x in l]], stopping at the first exception. *)
Fixpoint mapM {A B : Type} (f : A -> result B) (l : list A)
  : result (list B) :=
  match l with
  | [] => Ok []
  | x :: l' => y <- f x ;; ys <- mapM f l' ;; Ok (y :: ys)
  end.

(** ** Dictionaries in insertion order *)

Section Dict.
Variables K V : Type.
Variable eqb : K -> K -> bool.

Definition dict := list (K * V).

Fixpoint dict_get (d : dict) (k : K) : option V :=
  match d with
  | [] => None
  | (k', v) :: d' => if eqb k k' then Some v else dict_get d' k
  end.

Definition dict_mem (d : dict) (k : K) : bool :=
  match dict_get d k with Some _ => true | None => false end.

(** [d[k] = v]: an existing key keeps its position, a new key goes last. *)
Fixpoint dict_set (d : dict) (k : K) (v : V) : dict :=
  match d with
  | [] => [(k, v)]
  | (k', v') :: d' =>
      if eqb k k' then (k', v) :: d' else (k', v') :: dict_set d' k v
  end.

Definition dict_keys (d : dict) : list K := map fst d.
End Dict.

Arguments dict_get {K V} eqb d k.
Arguments dict_mem {K V} eqb d k.
Arguments dict_set {K V} eqb d k v.
Arguments dict_keys {K V} d.

(** Lookup and membership in a dictionary with [str] keys. *)
Abbreviation str_get := (dict_get String.eqb).
Abbreviation str_mem := (dict_mem String.eqb).

Definition opt_eqb (a b : option string) : bool :=
  match a, b with
  | None, None => true
  | Some x, Some y => String.eqb x y
  | _, _ => false
  end.

(** ** Stable sorting *)

Section Sort.
Variable A : Type.
Variable leb : A -> A -> bool.

Fixpoint insert_sorted (x : A) (l : list A) : list A :=
  match l with
  | [] => [x]
  | y :: l' => if leb x y then x :: l else y :: insert_sorted x l'
  end.

Fixpoint stable_sort (l : list A) : list A :=
  match l with
  | [] => []
  | x :: l' => insert_sorted x (stable_sort l')
  end.
End Sort.

(** [l.sort()] on a list of [str]. *)
Definition sort_strings : list string -> list string :=
  stable_sort String.leb.

(** [l.sort(key=...)] on a list whose keys were computed beforehand. *)
Definition sort_keyed {A : Type} (l : list (nat * A)) : list (nat * A) :=
  stable_sort (fun a b => Nat.leb (fst a) (fst b)) l.

(** ** [str.split(sep)] *)

(** Scans [s] from the left.  [skip] counts the characters of an already
    matched separator that are still to be dropped.  The head of the
    result is the segment that is being read. *)
Fixpoint split_from (sep : string) (skip : nat) (s : string) : list string :=
  match s with
  | EmptyString => [EmptyString]
  | String a s' =>
      match skip with
      | S k => split_from sep k s'
      | O =>
          if String.prefix sep s
          then EmptyString :: split_from sep (String.length sep - 1) s'
          else match split_from sep 0 s' with
               | seg :: rest => String a seg :: rest
               | [] => [String a EmptyString]
               end
      end
  end.

Definition py_split (s sep : string) : result (list string) :=
  if String.eqb sep EmptyString then Raise EmptySeparator
  else Ok (split_from sep 0 s).

Definition nonempty (s : string) : bool := negb (String.eqb s EmptyString).

(** [[p for p in path.split(sep) if p]] *)
Definition path_parts (sep path : string) : result (list string) :=
  parts <- py_split path sep ;; Ok (filter nonempty parts).

(** ** Adjacency list *)

Module ALNode.
Record t : Type := mk
  { node_id : string; parent_id : option string; name : string }.
End ALNode.

Module AdjacencyListTree.
Record t : Type := mk { nodes : dict string ALNode.t }.

Definition init : t := mk [].

(** [add_node] mutates [self] and may raise: the model returns the
    container as the call leaves it, and the outcome. *)
Definition add_node_st (self : t) (node_id : string)
    (parent_id : option string) (name : string) : t * result unit :=
  if dict_mem String.eqb (nodes self) node_id
  then (self, Raise (DuplicateIdentifier node_id))
  else
    match parent_id with
    | Some p =>
        if negb (dict_mem String.eqb (nodes self) p)
        then (self, Raise (UnknownParent p))
        else (mk (dict_set String.eqb (nodes self) node_id
                    (ALNode.mk node_id parent_id name)), Ok tt)
    | None =>
        (mk (dict_set String.eqb (nodes self) node_id
               (ALNode.mk node_id parent_id name)), Ok tt)
    end.

(** The same call seen by a caller that drops the container when the
    call raises. *)
Definition add_node (self : t) (node_id : string)
    (parent_id : option string) (name : string) : result t :=
  commit (add_node_st self node_id parent_id name).

Definition roots (self : t) : list string :=
  map fst
    (filter (fun it => opt_eqb (ALNode.parent_id (snd it)) None)
       (nodes self)).

Definition children_of (self : t) (parent_id : string) : list string :=
  map fst
    (filter (fun it => opt_eqb (ALNode.parent_id (snd it)) (Some parent_id))
       (nodes self)).

Definition len (self : t) : nat := List.length (nodes self).
End AdjacencyListTree.

(** ** Materialized path *)

Module MPNode.
Record t : Type := mk { node_id : string; path : string; name : string }.
End MPNode.

Module MaterializedPathTree.
Record t : Type := mk { sep : string; nodes : dict string MPNode.t }.

Definition init (sep : string) : t := mk sep [].

Definition add_node_st (self : t) (node_id path name : string)
  : t * result unit :=
  if dict_mem String.eqb (nodes self) node_id
  then (self, Raise (DuplicateIdentifier node_id))
  else if negb (String.prefix (sep self) path)
  then (self, Raise (MalformedPath node_id path))
  else (mk (sep self)
          (dict_set String.eqb (nodes self) node_id
             (MPNode.mk node_id path name)), Ok tt).

Definition add_node (self : t) (node_id path name : string) : result t :=
  commit (add_node_st self node_id path name).

Definition len (self : t) : nat := List.length (nodes self).
End MaterializedPathTree.

Module AL := AdjacencyListTree.
Module MP := MaterializedPathTree.

(** ** Forward conversion *)

Definition children_dict := dict (option string) (list string).

(** [children_map.get(k, [])] *)
Definition children_get (cm : children_dict) (k : option string)
  : list string :=
  match dict_get opt_eqb cm k with Some l => l | None => [] end.

(** [children_map.setdefault(parent_id, []).append(nid)] *)
Definition children_append (cm : children_dict) (parent_id : option string)
    (nid : string) : children_dict :=
  match dict_get opt_eqb cm parent_id with
  | Some l => dict_set opt_eqb cm parent_id (l ++ [nid])
  | None => dict_set opt_eqb cm parent_id [nid]
  end.

Definition group_children (al : AL.t) : children_dict :=
  fold_left
    (fun cm it => children_append cm (ALNode.parent_id (snd it)) (fst it))
    (AL.nodes al) [].

(** [for k in children_map: children_map[k].sort()] *)
Definition sort_children (cm : children_dict) : children_dict :=
  map (fun kv => (fst kv, sort_strings (snd kv))) cm.

Definition children_map (al : AL.t) : children_dict :=
  sort_children (group_children al).

Definition cur_path (sep node_id parent_path : string) : string :=
  if String.eqb parent_path sep
  then sep +++ node_id
  else parent_path +++ sep +++ node_id.

Section Forward.
Variable al : AL.t.
Variable sep : string.
Variable cm : children_dict.

Fixpoint dfs_build (fuel : nat) (node_id parent_path : string)
    (mp : MP.t) : result MP.t :=
  match fuel with
  | O => OutOfFuel
  | S fuel' =>
      let cur := cur_path sep node_id parent_path in
      node <- match dict_get String.eqb (AL.nodes al) node_id with
              | Some n => Ok n
              | None => Raise (KeyError node_id)
              end ;;
      mp1 <- MP.add_node mp node_id cur (ALNode.name node) ;;
      foldM (fun child_id m => dfs_build fuel' child_id cur m)
        (children_get cm (Some node_id)) mp1
  end.
End Forward.

Definition convert_al_to_mp (al : AL.t) (sep : string) : result MP.t :=
  let cm := children_map al in
  foldM (fun r m => dfs_build al sep cm (AL.len al) r sep m)
    (children_get cm None) (MP.init sep).

(** ** Reverse conversion *)

Definition depth (mp : MP.t) (node : MPNode.t) : result nat :=
  parts <- path_parts (MP.sep mp) (MPNode.path node) ;;
  Ok (List.length parts).

(** [items.sort(key=lambda x: depth(x[1]))]: the keys of all items are
    computed first, then the items are sorted by key, stably. *)
Definition sort_by_depth (mp : MP.t) (items : list (string * MPNode.t))
  : result (list (string * MPNode.t)) :=
  keyed <- mapM (fun it => d <- depth mp (snd it) ;; Ok (d, it)) items ;;
  Ok (map snd (sort_keyed keyed)).

(** One iteration of the insertion loop. *)
Definition rebuild_step (mp : MP.t) (it : string * MPNode.t) (al : AL.t)
  : result AL.t :=
  let node_id := fst it in
  let node := snd it in
  parts <- path_parts (MP.sep mp) (MPNode.path node) ;;
  match parts with
  | [] => Raise (MalformedPath node_id (MPNode.path node))
  | _ :: _ =>
      if negb (String.eqb (last parts EmptyString) node_id)
      then Raise (PathIdentityMismatch node_id (last parts EmptyString))
      else
        let parent_id :=
          if Nat.eqb (List.length parts) 1 then None
          else Some (nth (List.length parts - 2) parts EmptyString) in
        AL.add_node al node_id parent_id (MPNode.name node)
  end.

Definition convert_mp_to_al (mp : MP.t) : result AL.t :=
  items <- sort_by_depth mp (MP.nodes mp) ;;
  foldM (rebuild_step mp) items AL.init.

(** ** Trees built by the driver *)

(** One [add_node] call of a caller: identifier, parent, name. *)
Definition call : Type := string * option string * string.

Definition build_from (al : AL.t) (calls : list call) : result AL.t :=
  foldM (fun c t => AL.add_node t (fst (fst c)) (snd (fst c)) (snd c))
    calls al.

(** [built al]: [al] is the result of a sequence of successful [add_node]
    calls on a fresh tree. *)
Definition built (al : AL.t) : Prop :=
  exists calls, build_from AL.init calls = Ok al.

Open Scope string_scope.
Open Scope list_scope.

Definition scenario_A : list call :=
  [("A", None, "Root A"); ("B", Some "A", "Node B");
   ("C", Some "A", "Node C"); ("D", Some "B", "Node D")].

(** ** Vocabulary of the specification *)

Definition al_get (al : AL.t) (id : string) : option ALNode.t :=
  dict_get String.eqb (AL.nodes al) id.

Definition al_mem (al : AL.t) (id : string) : bool :=
  dict_mem String.eqb (AL.nodes al) id.

Definition mp_get (mp : MP.t) (id : string) : option MPNode.t :=
  dict_get String.eqb (MP.nodes mp) id.

(** [parent_of al c p]: node [c] is stored with parent identifier [p]. *)
Definition parent_of (al : AL.t) (c p : string) : Prop :=
  exists n, al_get al c = Some n /\ ALNode.parent_id n = Some p.

Definition is_root (al : AL.t) (r : string) : Prop :=
  exists n, al_get al r = Some n /\ ALNode.parent_id n = None.

(** Following parent pointers from [id] ends at a root. *)
Inductive reaches_root (al : AL.t) : string -> Prop :=
| reaches_here r : is_root al r -> reaches_root al r
| reaches_up c p : parent_of al c p -> reaches_root al p -> reaches_root al c.

Definition forest (al : AL.t) : Prop :=
  forall id, al_mem al id = true -> reaches_root al id.

Definition acyclic (al : AL.t) : Prop :=
  forall id, ~ clos_trans_1n string (parent_of al) id id.

(** Insert-before-reference order of the entries of a tree. *)
Inductive ordered : dict string ALNode.t -> Prop :=
| ordered_nil : ordered []
| ordered_snoc l id p nm :
    ordered l ->
    dict_mem String.eqb l id = false ->
    match p with
    | Some q => dict_mem String.eqb l q = true
    | None => True
    end ->
    ordered (l ++ [(id, ALNode.mk id p nm)]).

Definition str_le (a b : string) : Prop := String.leb a b = true.

(** The identifiers stored with parent [k], in the order of the mapping. *)
Definition children_ids (l : dict string ALNode.t) (k : option string)
  : list string :=
  map fst (filter (fun it => opt_eqb k (ALNode.parent_id (snd it))) l).

(** Position of an identifier in the mapping's insertion order. *)
Fixpoint index_of (x : string) (l : list string) : nat :=
  match l with
  | [] => 0
  | y :: l' => if String.eqb x y then 0 else S (index_of x l')
  end.

Definition rank (al : AL.t) (id : string) : nat :=
  index_of id (dict_keys (AL.nodes al)).

(** [desc al y x]: [y] is [x] or a descendant of [x]. *)
Definition desc (al : AL.t) (y x : string) : Prop :=
  clos_refl_trans_1n string (parent_of al) y x.

(** [child_in al c k]: [c] is stored with parent [k] ([None] for a root). *)
Definition child_in (al : AL.t) (c : string) (k : option string) : Prop :=
  exists n, al_get al c = Some n /\ ALNode.parent_id n = k.

(** What the traversal loop over the start nodes [cs], run with parent
    path [pp], appends to the output mapping: the entries [added]. *)
Definition visit_post (al : AL.t) (sep : string) (cs : list string)
    (pp : string) (added : dict string MPNode.t) : Prop :=
  NoDup (dict_keys added) /\
  (forall y, In y (dict_keys added) -> exists c, In c cs /\ desc al y c) /\
  (forall c, In c cs -> In c (dict_keys added)) /\
  (forall y c, In y (dict_keys added) -> parent_of al c y ->
     In c (dict_keys added)) /\
  (forall y m, In (y, m) added ->
     exists a, al_get al y = Some a /\
       MPNode.node_id m = y /\ MPNode.name m = ALNode.name a /\
       ((In y cs /\ MPNode.path m = cur_path sep y pp) \/
        (exists p pm, ALNode.parent_id a = Some p /\ In (p, pm) added /\
           MPNode.path m = cur_path sep y (MPNode.path pm)))).

(** What the forward converter returns on a tree built by [add_node]. *)
Definition forward_spec (al : AL.t) (sep : string) (mp : MP.t) : Prop :=
  MP.sep mp = sep /\
  NoDup (dict_keys (MP.nodes mp)) /\
  (forall id, In id (dict_keys (MP.nodes mp)) <->
              In id (dict_keys (AL.nodes al))) /\
  MP.len mp = AL.len al /\
  (forall id m, In (id, m) (MP.nodes mp) ->
     exists a, al_get al id = Some a /\
       MPNode.node_id m = id /\ MPNode.name m = ALNode.name a /\
       match ALNode.parent_id a with
       | None => MPNode.path m = sep +++ id
       | Some p =>
           exists pm, In (p, pm) (MP.nodes mp) /\
             MPNode.path m = cur_path sep id (MPNode.path pm)
       end).

(** The segments of a path when the delimiter is not empty. *)
Definition parts_of (sep path : string) : list string :=
  filter nonempty (split_from sep 0 path).

Definition depth_of (sep : string) (it : string * MPNode.t) : nat :=
  List.length (parts_of sep (MPNode.path (snd it))).

Definition depth_le (sep : string) (a b : string * MPNode.t) : Prop :=
  depth_of sep a <= depth_of sep b.

(** The items in the order in which the reverse converter inserts them. *)
Definition by_depth (sep : string) (items : list (string * MPNode.t))
  : list (string * MPNode.t) :=
  map snd (sort_keyed (map (fun it => (depth_of sep it, it)) items)).

(** The parent the reverse converter reads off the segments of a path. *)
Definition parent_from (parts : list string) : option string :=
  if Nat.eqb (List.length parts) 1 then None
  else Some (nth (List.length parts - 2) parts EmptyString).

(** The adjacency-list entry the reverse converter inserts for an item. *)
Definition rebuilt (sep : string) (it : string * MPNode.t)
  : string * ALNode.t :=
  (fst it,
   ALNode.mk (fst it) (parent_from (parts_of sep (MPNode.path (snd it))))
     (MPNode.name (snd it))).

(** What the reverse converter needs of an item to insert it: at least
    one segment, the last of which is the item's key, and, below depth
    one, a parent segment that is the key of a shallower item. *)
Definition insertable (sep : string) (items : list (string * MPNode.t))
    (it : string * MPNode.t) : Prop :=
  let parts := parts_of sep (MPNode.path (snd it)) in
  parts <> [] /\
  last parts EmptyString = fst it /\
  forall p, parent_from parts = Some p ->
    exists pm, In (p, pm) items /\ depth_of sep (p, pm) < depth_of sep it.

(** Ancestor consistency of a materialized-path tree (the invariant of the
    data model): the delimiter is not empty, every path ends in the
    node's own identifier, and what precedes it is the list of segments
    of the path of the node named by the second-to-last segment. *)
Definition mp_well_formed (mp : MP.t) : Prop :=
  MP.sep mp <> EmptyString /\
  NoDup (dict_keys (MP.nodes mp)) /\
  forall id m, In (id, m) (MP.nodes mp) ->
    exists ps, parts_of (MP.sep mp) (MPNode.path m) = ps ++ [id] /\
      (ps <> [] ->
       exists pm, In (last ps EmptyString, pm) (MP.nodes mp) /\
                  parts_of (MP.sep mp) (MPNode.path pm) = ps).

(** [c in s] for a one-character string [c]. *)
Fixpoint has_char (c : ascii) (s : string) : bool :=
  match s with
  | EmptyString => false
  | String a s' => if Ascii.eqb a c then true else has_char c s'
  end.

(** No identifier of the tree is empty or contains the character [c]. *)
Definition clean_ids (c : ascii) (al : AL.t) : Prop :=
  forall id, In id (dict_keys (AL.nodes al)) ->
    id <> EmptyString /\ has_char c id = false.

(** [sep.join(parts)] *)
Fixpoint join (sep : string) (parts : list string) : string :=
  match parts with
  | [] => EmptyString
  | x :: rest =>
      match rest with
      | [] => x
      | _ :: _ => x +++ sep +++ join sep rest
      end
  end.

(** The identifiers from a root down to [id], read off the parent
    pointers in at most [fuel] steps. *)
Fixpoint chain (al : AL.t) (fuel : nat) (id : string) : list string :=
  match fuel with
  | O => []
  | S f =>
      match al_get al id with
      | None => []
      | Some n =>
          match ALNode.parent_id n with
          | None => [id]
          | Some p => chain al f p ++ [id]
          end
      end
  end.

(** The delimiter-joined chain with one leading delimiter. *)
Definition chain_path (sep : string) (ch : list string) : string :=
  sep +++ join sep ch.

Definition nonempty_ids (al : AL.t) : Prop :=
  forall id, In id (dict_keys (AL.nodes al)) -> id <> EmptyString.

(** ** Example trees *)

Definition scenario_A_tree : AL.t :=
  AL.mk [("A", ALNode.mk "A" None "Root A");
         ("B", ALNode.mk "B" (Some "A") "Node B");
         ("C", ALNode.mk "C" (Some "A") "Node C");
         ("D", ALNode.mk "D" (Some "B") "Node D")].

(** A root with the empty identifier and one child. *)
Definition empty_root_tree : AL.t :=
  AL.mk [(EmptyString, ALNode.mk EmptyString None "r"); ("B", ALNode.mk "B" (Some EmptyString) "b")].

(** Identifiers "a" and "b", for the delimiter "aa". *)
Definition a_b_tree : AL.t :=
  AL.mk [("a", ALNode.mk "a" None "x"); ("b", ALNode.mk "b" (Some "a") "y")].

(** A root whose identifier contains the delimiter. *)
Definition slash_tree : AL.t :=
  AL.mk [("A/B", ALNode.mk "A/B" None "n")].

Definition two_node_tree : AL.t :=
  AL.mk [("A", ALNode.mk "A" None "a"); ("B", ALNode.mk "B" (Some "A") "b")].

(** The same entries as [two_node_tree], child first. *)
Definition two_node_tree_swapped : AL.t :=
  AL.mk [("B", ALNode.mk "B" (Some "A") "b"); ("A", ALNode.mk "A" None "a")].

Definition two_node_paths : MP.t :=
  MP.mk "/" [("A", MPNode.mk "A" "/A" "a"); ("B", MPNode.mk "B" "/A/B" "b")].

(** A well-formed materialized-path tree that lists the child first. *)
Definition child_first_paths : MP.t :=
  MP.mk "/" [("B", MPNode.mk "B" "/A/B" "b"); ("A", MPNode.mk "A" "/A" "a")].

(** Scenario C: identifier "Z" with path "/X/Y". *)
Definition scenario_C_paths : MP.t :=
  MP.mk "/" [("Z", MPNode.mk "Z" "/X/Y" "z")].

(** A mismatching node next to a node whose path has no segment. *)
Definition mismatch_and_empty_paths : MP.t :=
  MP.mk "/" [("Z", MPNode.mk "Z" "/X/Y" "z"); ("W", MPNode.mk "W" "/" "w")].

(** A mismatching node next to a shallower node without its parent. *)
Definition mismatch_and_orphan_paths : MP.t :=
  MP.mk "/" [("Z", MPNode.mk "Z" "/X/Y/W" "z");
             ("B", MPNode.mk "B" "/A/B" "b")].

(** ** Materialized-path trees built by a caller *)

(** One [add_node] call on a materialized-path tree: identifier, path,
    name. *)
Definition mp_call : Type := string * string * string.

Definition mp_build_from (mp : MP.t) (calls : list mp_call) : result MP.t :=
  foldM (fun c t => MP.add_node t (fst (fst c)) (snd (fst c)) (snd c))
    calls mp.

Definition mp_built (mp : MP.t) : Prop :=
  exists calls, mp_build_from (MP.init (MP.sep mp)) calls = Ok mp.

(** What [MaterializedPathTree.add_node] maintains: unique keys, every
    node stored under its own identifier, every path starting with the
    delimiter. *)
Definition mp_ok (mp : MP.t) : Prop :=
  NoDup (dict_keys (MP.nodes mp)) /\
  forall id m, In (id, m) (MP.nodes mp) ->
    MPNode.node_id m = id /\
    String.prefix (MP.sep mp) (MPNode.path m) = true.

(** Every path is its own segments joined by the delimiter, with one
    leading delimiter: no doubled or trailing delimiter. *)
Definition canonical_paths (mp : MP.t) : Prop :=
  forall id m, In (id, m) (MP.nodes mp) ->
    MPNode.node_id m = id /\
    MPNode.path m =
      chain_path (MP.sep mp) (parts_of (MP.sep mp) (MPNode.path m)).

(** The failures the reverse converter can report. *)
Definition reverse_failure (e : error) : Prop :=
  match e with
  | EmptySeparator | MalformedPath _ _ | PathIdentityMismatch _ _
  | UnknownParent _ => True
  | DuplicateIdentifier _ | KeyError _ => False
  end.

(** What the traversal loop over the start nodes [cs], run with parent
    path [pp], is seen to append on any input: every entry stands for an
    input node, and it is a start node with the path built from [pp], or
    a child, in the children map, of an entry appended before it, with
    the path built from that entry's path. *)
Definition emitted (al : AL.t) (sep : string) (cm : children_dict)
    (cs : list string) (pp : string) (added : dict string MPNode.t) : Prop :=
  forall l1 y m l2, added = l1 ++ (y, m) :: l2 ->
    (exists a, al_get al y = Some a /\
       MPNode.node_id m = y /\ MPNode.name m = ALNode.name a) /\
    ((In y cs /\ MPNode.path m = cur_path sep y pp) \/
     (exists p pm, In (p, pm) l1 /\ In y (children_get cm (Some p)) /\
        MPNode.path m = cur_path sep y (MPNode.path pm))).

(** Every node passes the two checks the reverse converter makes on a
    path by itself: at least one segment, the last one the node's key. *)
Definition paths_end_in_key (mp : MP.t) : Prop :=
  forall id m, In (id, m) (MP.nodes mp) ->
    parts_of (MP.sep mp) (MPNode.path m) <> [] /\
    last (parts_of (MP.sep mp) (MPNode.path m)) EmptyString = id.

(** * Basic facts *)

Lemma bind_Ok_inv {A B : Type} (m : result A) (k : A -> result B) (b : B) :
  bind m k = Ok b -> exists a, m = Ok a /\ k a = Ok b.
Proof. destruct m; simpl; intros H; try discriminate; eauto. Qed.

Lemma foldM_app {A S : Type} (f : A -> S -> result S) (l1 l2 : list A) (s : S) :
  foldM f (l1 ++ l2) s = (s' <- foldM f l1 s ;; foldM f l2 s').
Proof.
  revert s; induction l1 as [|x l1 IH]; intros s; simpl; [reflexivity|].
  destruct (f x s); simpl; auto.
Qed.

Lemma opt_eqb_eq (a b : option string) : opt_eqb a b = true <-> a = b.
Proof.
  destruct a as [x|], b as [y|]; simpl; split; intros H;
    try discriminate; try reflexivity.
  - apply String.eqb_eq in H; congruence.
  - inversion H; apply String.eqb_refl.
Qed.

Section DictFacts.
Variables K V : Type.
Variable eqb : K -> K -> bool.
Hypothesis eqb_eq : forall a b, eqb a b = true <-> a = b.

Implicit Types (d : dict K V) (k : K) (v : V).

Lemma eqb_same k : eqb k k = true.
Proof. apply eqb_eq; reflexivity. Qed.

Lemma eqb_diff k k' : k <> k' -> eqb k k' = false.
Proof.
  intros H; destruct (eqb k k') eqn:E; [|reflexivity].
  apply eqb_eq in E; contradiction.
Qed.

Lemma dict_get_app d1 d2 k :
  dict_get eqb (d1 ++ d2) k =
  match dict_get eqb d1 k with
  | Some v => Some v
  | None => dict_get eqb d2 k
  end.
Proof.
  induction d1 as [|[k' v'] d1 IH]; simpl; [reflexivity|].
  destruct (eqb k k'); auto.
Qed.

Lemma dict_get_None d k :
  dict_get eqb d k = None <-> ~ In k (dict_keys d).
Proof.
  induction d as [|[k' v'] d IH]; simpl.
  - tauto.
  - destruct (eqb k k') eqn:E.
    + apply eqb_eq in E; subst; split; [discriminate|tauto].
    + rewrite IH; split; [|tauto].
      intros H [H1|H1]; [|tauto].
      subst; rewrite eqb_same in E; discriminate.
Qed.

Lemma dict_get_Some_In d k v : dict_get eqb d k = Some v -> In (k, v) d.
Proof.
  induction d as [|[k' v'] d IH]; simpl; [discriminate|].
  destruct (eqb k k') eqn:E; intros H.
  - apply eqb_eq in E; inversion H; subst; auto.
  - auto.
Qed.

Lemma dict_get_In d k v :
  NoDup (dict_keys d) -> In (k, v) d -> dict_get eqb d k = Some v.
Proof.
  induction d as [|[k' v'] d IH]; simpl; [tauto|].
  intros Hnd [H|H]; inversion Hnd; subst.
  - inversion H; subst; rewrite eqb_same; reflexivity.
  - rewrite eqb_diff; auto.
    intros ->; apply H2; unfold dict_keys.
    change k' with (fst (k', v)); apply in_map; assumption.
Qed.

Lemma dict_mem_In d k : dict_mem eqb d k = true <-> In k (dict_keys d).
Proof.
  unfold dict_mem; destruct (dict_get eqb d k) eqn:E.
  - split; [intros _|reflexivity].
    apply dict_get_Some_In in E; unfold dict_keys.
    change k with (fst (k, v)); apply in_map; assumption.
  - apply dict_get_None in E; split; [discriminate|contradiction].
Qed.

Lemma dict_mem_false d k : dict_mem eqb d k = false <-> ~ In k (dict_keys d).
Proof.
  rewrite <- dict_mem_In; destruct (dict_mem eqb d k); split; intros H;
    try discriminate; try reflexivity; exfalso; apply H; reflexivity.
Qed.

Lemma dict_set_absent d k v :
  dict_mem eqb d k = false -> dict_set eqb d k v = d ++ [(k, v)].
Proof.
  unfold dict_mem; induction d as [|[k' v'] d IH]; simpl; [reflexivity|].
  destruct (eqb k k'); [discriminate|].
  intros H; rewrite IH; auto.
Qed.

Lemma dict_get_set d k v k' :
  dict_get eqb (dict_set eqb d k v) k' =
  if eqb k' k then Some v else dict_get eqb d k'.
Proof.
  induction d as [|[k0 v0] d IH]; simpl.
  - reflexivity.
  - destruct (eqb k k0) eqn:E; simpl.
    + apply eqb_eq in E; subst k0.
      destruct (eqb k' k); reflexivity.
    + rewrite IH. destruct (eqb k' k0) eqn:E0; [|reflexivity].
      apply eqb_eq in E0; subst k0.
      destruct (eqb k' k) eqn:E1; [|reflexivity].
      apply eqb_eq in E1; subst; rewrite eqb_same in E; discriminate.
Qed.

Lemma dict_keys_app d1 d2 :
  dict_keys (d1 ++ d2) = dict_keys d1 ++ dict_keys d2.
Proof. unfold dict_keys; apply map_app. Qed.
End DictFacts.

Arguments eqb_same {K eqb} eqb_eq k.
Arguments eqb_diff {K eqb} eqb_eq k k'.
Arguments dict_get_app {K V} eqb d1 d2 k.
Arguments dict_get_None {K V eqb} eqb_eq d k.
Arguments dict_get_Some_In {K V eqb} eqb_eq d k v.
Arguments dict_get_In {K V eqb} eqb_eq d k v.
Arguments dict_mem_In {K V eqb} eqb_eq d k.
Arguments dict_mem_false {K V eqb} eqb_eq d k.
Arguments dict_set_absent {K V} eqb d k v.
Arguments dict_get_set {K V eqb} eqb_eq d k v k'.
Arguments dict_keys_app {K V} d1 d2.

(** * The adjacency-list container *)

Lemma al_add_node_Ok (al : AL.t) id p nm :
  al_mem al id = false ->
  match p with Some q => al_mem al q = true | None => True end ->
  AL.add_node_st al id p nm =
    (AL.mk (AL.nodes al ++ [(id, ALNode.mk id p nm)]), Ok tt).
Proof.
  unfold al_mem, AL.add_node_st; intros Hid Hp.
  rewrite Hid.
  rewrite (dict_set_absent _ _ _ _ Hid).
  destruct p as [q|]; [rewrite Hp|]; reflexivity.
Qed.

Lemma al_add_node_inv (al al' : AL.t) id p nm :
  AL.add_node al id p nm = Ok al' ->
  al_mem al id = false /\
  match p with Some q => al_mem al q = true | None => True end /\
  al' = AL.mk (AL.nodes al ++ [(id, ALNode.mk id p nm)]).
Proof.
  unfold AL.add_node, commit, AL.add_node_st, al_mem.
  destruct (str_mem (AL.nodes al) id) eqn:Hid; simpl; [discriminate|].
  rewrite (dict_set_absent _ _ _ _ Hid).
  destruct p as [q|].
  - destruct (str_mem (AL.nodes al) q) eqn:Hq; simpl; [|discriminate].
    intros H; inversion H; auto.
  - simpl; intros H; inversion H; auto.
Qed.

Lemma build_from_cons al c calls :
  build_from al (c :: calls) =
  (t <- AL.add_node al (fst (fst c)) (snd (fst c)) (snd c) ;;
   build_from t calls).
Proof. reflexivity. Qed.

Lemma build_from_ordered calls : forall al al',
  ordered (AL.nodes al) -> build_from al calls = Ok al' ->
  ordered (AL.nodes al').
Proof.
  induction calls as [|[[id p] nm] calls IH]; intros al al' Hal H.
  - inversion H; subst; assumption.
  - rewrite build_from_cons in H.
    apply bind_Ok_inv in H; destruct H as (al1 & H1 & H2).
    apply al_add_node_inv in H1; destruct H1 as (Hid & Hp & ->).
    cbn [fst snd] in *.
    eapply IH; [|exact H2]; simpl; apply ordered_snoc; assumption.
Qed.

Lemma built_ordered al : built al -> ordered (AL.nodes al).
Proof.
  intros [calls H]; eapply build_from_ordered; [|exact H]; constructor.
Qed.

Lemma ordered_built l : ordered l -> built (AL.mk l).
Proof.
  induction 1 as [|l id p nm Hl [calls IH] Hid Hp].
  - exists []; reflexivity.
  - exists (calls ++ [(id, p, nm)]).
    unfold build_from in *; rewrite foldM_app, IH; simpl.
    unfold AL.add_node; rewrite al_add_node_Ok; auto.
Qed.

(** C7 (amended). [AdjacencyListTree.add_node] fails with
    DuplicateIdentifier whenever the identifier is already present; it
    fails with UnknownParent whenever the identifier is new and a parent
    identifier is given that is not in the container; and whenever it
    fails, the container is the one it was before the call (same node
    mapping, same size). *)
Theorem C7_al_add_node_rejects (al : AL.t) (id : string)
    (p : option string) (nm : string) :
  (al_mem al id = true ->
   AL.add_node_st al id p nm = (al, Raise (DuplicateIdentifier id))) /\
  (al_mem al id = false -> forall q, p = Some q -> al_mem al q = false ->
   AL.add_node_st al id p nm = (al, Raise (UnknownParent q))) /\
  (forall e, snd (AL.add_node_st al id p nm) = Raise e ->
   fst (AL.add_node_st al id p nm) = al /\
   AL.nodes (fst (AL.add_node_st al id p nm)) = AL.nodes al /\
   AL.len (fst (AL.add_node_st al id p nm)) = AL.len al).
Proof.
  unfold al_mem, AL.add_node_st; repeat split.
  - intros ->; reflexivity.
  - intros -> q -> ->; reflexivity.
  - destruct (str_mem (AL.nodes al) id); [reflexivity|].
    destruct p as [q|]; [|discriminate].
    destruct (str_mem (AL.nodes al) q); [discriminate|reflexivity].
  - destruct (str_mem (AL.nodes al) id); [reflexivity|].
    destruct p as [q|]; [|discriminate].
    destruct (str_mem (AL.nodes al) q); [discriminate|reflexivity].
  - destruct (str_mem (AL.nodes al) id); [reflexivity|].
    destruct p as [q|]; [|discriminate].
    destruct (str_mem (AL.nodes al) q); [discriminate|reflexivity].
Qed.

Lemma C7_al_add_node_rejects_witness :
  let al := AL.mk [("A", ALNode.mk "A" None "a")] in
  AL.add_node_st al "A" None "n" = (al, Raise (DuplicateIdentifier "A")) /\
  AL.add_node_st al "B" (Some "X") "n" = (al, Raise (UnknownParent "X")) /\
  AL.len (fst (AL.add_node_st al "B" (Some "X") "n")) = 1.
Proof.
  intros al.
  pose proof (C7_al_add_node_rejects al "A" None "n") as (H1 & _ & _).
  pose proof (C7_al_add_node_rejects al "B" (Some "X") "n") as (_ & H2 & H3).
  split; [apply H1; reflexivity|].
  split; [apply (H2 eq_refl "X" eq_refl); reflexivity|].
  apply (H3 (UnknownParent "X")); reflexivity.
Defined.

(** The claim C7 as stated fails: with a duplicate identifier and an
    unknown parent the call reports DuplicateIdentifier, not
    UnknownParent. *)
Lemma C7_unknown_parent_with_duplicate_id :
  let al := AL.mk [("A", ALNode.mk "A" None "a")] in
  built al /\
  al_mem al "X" = false /\
  snd (AL.add_node_st al "A" (Some "X") "n") =
    Raise (DuplicateIdentifier "A") /\
  snd (AL.add_node_st al "A" (Some "X") "n") <> Raise (UnknownParent "X").
Proof.
  intros al; split; [exists [("A", None, "a")]; reflexivity|].
  split; [reflexivity|]. split; [reflexivity|]. discriminate.
Qed.

(** * The materialized-path container *)

(** C8 (amended). [MaterializedPathTree.add_node] fails with
    DuplicateIdentifier when the identifier is already present, fails
    with MalformedPath when the identifier is new and the path does not
    start with the configured delimiter (so for path "X/Y" with delimiter
    "/" in an empty container), and otherwise appends the node, whatever
    else the path contains. *)
Theorem C8_mp_add_node_checks (mp : MP.t) (id path nm : string) :
  (str_mem (MP.nodes mp) id = true ->
   MP.add_node_st mp id path nm = (mp, Raise (DuplicateIdentifier id))) /\
  (str_mem (MP.nodes mp) id = false ->
   String.prefix (MP.sep mp) path = false ->
   MP.add_node_st mp id path nm = (mp, Raise (MalformedPath id path))) /\
  (str_mem (MP.nodes mp) id = false ->
   String.prefix (MP.sep mp) path = true ->
   MP.add_node_st mp id path nm =
     (MP.mk (MP.sep mp) (MP.nodes mp ++ [(id, MPNode.mk id path nm)]),
      Ok tt)) /\
  MP.add_node_st (MP.init "/") id "X/Y" nm =
    (MP.init "/", Raise (MalformedPath id "X/Y")).
Proof.
  unfold MP.add_node_st; repeat split.
  - intros ->; reflexivity.
  - intros -> ->; reflexivity.
  - intros H ->; rewrite H; simpl.
    rewrite (dict_set_absent _ _ _ _ H); reflexivity.
Qed.

Lemma C8_mp_add_node_checks_witness :
  let mp := MP.mk "/" [("X", MPNode.mk "X" "/X" "x")] in
  MP.add_node_st mp "X" "/X/Y" "n" = (mp, Raise (DuplicateIdentifier "X")) /\
  MP.add_node_st mp "Y" "X/Y" "n" = (mp, Raise (MalformedPath "Y" "X/Y")) /\
  MP.add_node_st mp "Q" "/no/such//ancestors/Z" "n" =
    (MP.mk "/" [("X", MPNode.mk "X" "/X" "x");
                ("Q", MPNode.mk "Q" "/no/such//ancestors/Z" "n")], Ok tt).
Proof.
  intros mp.
  pose proof (C8_mp_add_node_checks mp "X" "/X/Y" "n") as (H1 & _).
  pose proof (C8_mp_add_node_checks mp "Y" "X/Y" "n") as (_ & H2 & _).
  pose proof (C8_mp_add_node_checks mp "Q" "/no/such//ancestors/Z" "n")
    as (_ & _ & H3 & _).
  split; [apply H1; reflexivity|].
  split; [apply H2; reflexivity|].
  apply H3; reflexivity.
Defined.

(** The claim C8 as stated fails: a path without the leading delimiter
    under an identifier that is already present is reported as
    DuplicateIdentifier, not as MalformedPath. *)
Lemma C8_malformed_path_with_duplicate_id :
  let mp := MP.mk "/" [("X", MPNode.mk "X" "/X" "x")] in
  String.prefix (MP.sep mp) "X/Y" = false /\
  snd (MP.add_node_st mp "X" "X/Y" "n") = Raise (DuplicateIdentifier "X") /\
  snd (MP.add_node_st mp "X" "X/Y" "n") <> Raise (MalformedPath "X" "X/Y").
Proof.
  intros mp; split; [reflexivity|]. split; [reflexivity|]. discriminate.
Qed.

(** * The parent-pointer graph of a tree *)

Lemma parent_of_fun al c p p' : parent_of al c p -> parent_of al c p' -> p = p'.
Proof. intros (n & Hn & Hp) (n' & Hn' & Hp'); congruence. Qed.

Lemma root_no_parent al r p : is_root al r -> parent_of al r p -> False.
Proof. intros (n & Hn & Hp) (n' & Hn' & Hp'); congruence. Qed.

Lemma parent_of_mem al c p : parent_of al c p -> al_mem al c = true.
Proof. intros (n & Hn & _); unfold al_mem, dict_mem, al_get in *; now rewrite Hn. Qed.

Lemma climb_snoc al x y z :
  clos_trans_1n string (parent_of al) x y -> parent_of al y z ->
  clos_trans_1n string (parent_of al) x z.
Proof.
  induction 1 as [x y H|x y w H H' IH]; intros Hz.
  - eapply Relation_Operators.t1n_trans; [exact H|]. apply t1n_step; exact Hz.
  - eapply Relation_Operators.t1n_trans; [exact H|]. apply IH; exact Hz.
Qed.

Lemma reaches_root_no_cycle al id :
  reaches_root al id -> ~ clos_trans_1n string (parent_of al) id id.
Proof.
  induction 1 as [r Hr|c p Hcp Hp IH]; intros Hc.
  - inversion Hc; subst; eapply root_no_parent; eauto.
  - apply IH. inversion Hc as [y Hy|y z Hy Hyz]; subst.
    + rewrite (parent_of_fun Hcp Hy). rewrite (parent_of_fun Hcp Hy) in Hcp.
      apply t1n_step; exact Hcp.
    + rewrite (parent_of_fun Hcp Hy). eapply climb_snoc; [exact Hyz|].
      rewrite <- (parent_of_fun Hcp Hy); exact Hcp.
Qed.

Lemma forest_acyclic al : forest al -> acyclic al.
Proof.
  intros Hf id Hc. apply (@reaches_root_no_cycle al id); [|exact Hc].
  apply Hf. inversion Hc; subst; eapply parent_of_mem; eauto.
Qed.

Lemma al_get_snoc l id n x :
  str_mem l id = false ->
  al_get (AL.mk (l ++ [(id, n)])) x =
  if String.eqb x id then Some n else str_get l x.
Proof.
  intros Hid; unfold al_get; simpl. rewrite dict_get_app; simpl.
  destruct (String.eqb x id) eqn:E.
  - apply String.eqb_eq in E; subst x.
    unfold dict_mem in Hid. destruct (str_get l id); [discriminate|reflexivity].
  - destruct (str_get l x); reflexivity.
Qed.

Lemma al_get_snoc_old l id n x v :
  str_mem l id = false -> str_get l x = Some v ->
  al_get (AL.mk (l ++ [(id, n)])) x = Some v.
Proof.
  intros Hid Hx; rewrite al_get_snoc by assumption.
  destruct (String.eqb x id) eqn:E; [|assumption].
  apply String.eqb_eq in E; subst x.
  unfold dict_mem in Hid; rewrite Hx in Hid; discriminate.
Qed.

Lemma reaches_root_snoc l id n x :
  str_mem l id = false ->
  reaches_root (AL.mk l) x -> reaches_root (AL.mk (l ++ [(id, n)])) x.
Proof.
  intros Hid; induction 1 as [r (m & Hm & Hr)|c p (m & Hm & Hp) _ IH].
  - apply reaches_here; exists m; split; [|assumption].
    apply al_get_snoc_old; assumption.
  - eapply reaches_up; [|exact IH]. exists m; split; [|assumption].
    apply al_get_snoc_old; assumption.
Qed.

Lemma add_node_forest al id p nm al' :
  forest al -> AL.add_node al id p nm = Ok al' -> forest al'.
Proof.
  intros Hf H; apply al_add_node_inv in H; destruct H as (Hid & Hp & ->).
  destruct al as [l]; unfold al_mem in *; simpl in *.
  intros x Hx. unfold al_mem in Hx; simpl in Hx.
  apply (dict_mem_In String.eqb_eq) in Hx.
  rewrite dict_keys_app in Hx; apply in_app_or in Hx; destruct Hx as [Hx|Hx].
  - apply reaches_root_snoc; [assumption|].
    apply Hf; unfold al_mem; simpl.
    apply (dict_mem_In String.eqb_eq); assumption.
  - simpl in Hx; destruct Hx as [<-|[]].
    assert (Hget : al_get (AL.mk (l ++ [(id, ALNode.mk id p nm)])) id =
                   Some (ALNode.mk id p nm)).
    { rewrite al_get_snoc by assumption. now rewrite String.eqb_refl. }
    destruct p as [q|].
    + eapply reaches_up with (p := q).
      * eexists; split; [exact Hget|reflexivity].
      * apply reaches_root_snoc; [assumption|]. apply Hf; exact Hp.
    + apply reaches_here; eexists; split; [exact Hget|reflexivity].
Qed.

Lemma init_forest : forest AL.init.
Proof. intros id H; discriminate. Qed.

Lemma build_from_forest calls : forall al al',
  forest al -> build_from al calls = Ok al' -> forest al'.
Proof.
  induction calls as [|c calls IH]; intros al al' Hf H.
  - inversion H; subst; assumption.
  - rewrite build_from_cons in H.
    apply bind_Ok_inv in H; destruct H as (al1 & H1 & H2).
    eapply IH; [|exact H2]. eapply add_node_forest; eauto.
Qed.

Lemma built_forest al : built al -> forest al.
Proof. intros [calls H]; eapply build_from_forest; [apply init_forest|exact H]. Qed.

(** C9. The empty tree is a forest; [add_node] keeps a forest a forest
    (it performs only the duplicate and the parent membership test); so
    in every tree built by successful [add_node] calls every node reaches
    a root by following parent pointers, and no node is its own
    ancestor. *)
Theorem C9_forest_invariant :
  forest AL.init /\
  (forall al id p nm al',
     forest al -> AL.add_node al id p nm = Ok al' -> forest al') /\
  (forall al, built al ->
     (forall id, al_mem al id = true -> reaches_root al id) /\ acyclic al).
Proof.
  split; [apply init_forest|]. split; [apply add_node_forest|].
  intros al Hb; split; [apply built_forest; assumption|].
  apply forest_acyclic, built_forest; assumption.
Qed.

Lemma C9_forest_invariant_witness :
  let al := AL.mk [("A", ALNode.mk "A" None "a");
                   ("B", ALNode.mk "B" (Some "A") "b")] in
  reaches_root al "B" /\ acyclic al /\
  forest (AL.mk [("A", ALNode.mk "A" None "a");
                 ("B", ALNode.mk "B" (Some "A") "b");
                 ("C", ALNode.mk "C" (Some "B") "c")]).
Proof.
  intros al.
  destruct C9_forest_invariant as (_ & Hstep & Hall).
  assert (Hb : built al) by (exists [("A", None, "a"); ("B", Some "A", "b")]; reflexivity).
  destruct (Hall al Hb) as (Hr & Ha).
  split; [apply Hr; reflexivity|]. split; [exact Ha|].
  apply (Hstep al "C" (Some "B") "c"); [|reflexivity].
  exact Hr.
Defined.

(** * Sorting *)

Section SortFacts.
Variable A : Type.
Variable leb : A -> A -> bool.
Hypothesis leb_total : forall a b, leb a b = true \/ leb b a = true.
Hypothesis leb_trans :
  forall a b c, leb a b = true -> leb b c = true -> leb a c = true.

Local Abbreviation le := (fun a b : A => leb a b = true).

Lemma insert_sorted_perm x l : Permutation (insert_sorted leb x l) (x :: l).
Proof.
  induction l as [|y l IH]; simpl; [apply Permutation_refl|].
  destruct (leb x y); [apply Permutation_refl|].
  eapply perm_trans; [apply perm_skip, IH|apply perm_swap].
Qed.

Lemma stable_sort_perm l : Permutation (stable_sort leb l) l.
Proof.
  induction l as [|x l IH]; simpl; [apply perm_nil|].
  eapply perm_trans; [apply insert_sorted_perm|apply perm_skip, IH].
Qed.

Lemma insert_sorted_sorted x l :
  StronglySorted le l -> StronglySorted le (insert_sorted leb x l).
Proof.
  induction 1 as [|y l Hl IH Hy]; simpl.
  - constructor; constructor.
  - destruct (leb x y) eqn:E.
    + constructor; [constructor; assumption|].
      constructor; [exact E|].
      eapply Forall_impl; [|exact Hy].
      intros z Hz; eapply leb_trans; eauto.
    + constructor; [exact IH|].
      eapply Permutation_Forall;
        [apply Permutation_sym, insert_sorted_perm|].
      constructor; [|exact Hy].
      destruct (leb_total x y) as [H|H]; [congruence|exact H].
Qed.

Lemma stable_sort_sorted l : StronglySorted le (stable_sort leb l).
Proof.
  induction l as [|x l IH]; simpl; [constructor|].
  apply insert_sorted_sorted; exact IH.
Qed.

Hypothesis leb_antisym :
  forall a b, leb a b = true -> leb b a = true -> a = b.

Lemma sorted_perm_eq l1 : forall l2,
  StronglySorted le l1 -> StronglySorted le l2 -> Permutation l1 l2 ->
  l1 = l2.
Proof.
  induction l1 as [|a l1 IH]; intros l2 H1 H2 HP.
  - apply Permutation_nil in HP; subst; reflexivity.
  - destruct l2 as [|b l2];
      [apply Permutation_sym, Permutation_nil in HP; discriminate|].
    inversion H1 as [|? ? H1' Ha]; inversion H2 as [|? ? H2' Hb]; subst.
    assert (a = b) as ->.
    { assert (Hin1 : In a (b :: l2))
        by (eapply Permutation_in; [exact HP|left; reflexivity]).
      assert (Hin2 : In b (a :: l1))
        by (eapply Permutation_in;
            [apply Permutation_sym, HP|left; reflexivity]).
      destruct Hin1 as [->|Hin1]; [reflexivity|].
      destruct Hin2 as [->|Hin2]; [reflexivity|].
      rewrite Forall_forall in Ha, Hb.
      apply leb_antisym; [apply Ha|apply Hb]; assumption. }
    f_equal; apply IH; try assumption.
    eapply Permutation_cons_inv; exact HP.
Qed.

Lemma stable_sort_perm_eq l1 l2 :
  Permutation l1 l2 -> stable_sort leb l1 = stable_sort leb l2.
Proof.
  intros HP; apply sorted_perm_eq; try apply stable_sort_sorted.
  eapply perm_trans; [apply stable_sort_perm|].
  eapply perm_trans; [exact HP|apply Permutation_sym, stable_sort_perm].
Qed.
End SortFacts.

Lemma ascii_compare_refl a : Ascii.compare a a = Eq.
Proof. unfold Ascii.compare; apply N.compare_refl. Qed.

Lemma ascii_compare_lt_trans a b c :
  Ascii.compare a b = Lt -> Ascii.compare b c = Lt -> Ascii.compare a c = Lt.
Proof.
  unfold Ascii.compare; rewrite !N.compare_lt_iff; apply N.lt_trans.
Qed.

Lemma string_leb_trans a : forall b c,
  String.leb a b = true -> String.leb b c = true -> String.leb a c = true.
Proof.
  unfold String.leb.
  induction a as [|x a IH]; intros [|y b] [|z c]; simpl; auto;
    try discriminate.
  destruct (Ascii.compare x y) eqn:Exy; try discriminate;
    destruct (Ascii.compare y z) eqn:Eyz; try discriminate; intros H1 H2.
  - apply Ascii.compare_eq_iff in Exy, Eyz; subst.
    rewrite ascii_compare_refl; eapply IH; eauto.
  - apply Ascii.compare_eq_iff in Exy; subst; rewrite Eyz; reflexivity.
  - apply Ascii.compare_eq_iff in Eyz; subst; rewrite Exy; reflexivity.
  - rewrite (ascii_compare_lt_trans _ _ _ Exy Eyz); reflexivity.
Qed.

Lemma sort_strings_perm l : Permutation (sort_strings l) l.
Proof. apply stable_sort_perm. Qed.

Lemma sort_strings_sorted l : StronglySorted str_le (sort_strings l).
Proof.
  apply stable_sort_sorted;
    [apply String.leb_total|exact string_leb_trans].
Qed.

Lemma sort_strings_perm_eq l1 l2 :
  Permutation l1 l2 -> sort_strings l1 = sort_strings l2.
Proof.
  apply stable_sort_perm_eq;
    [apply String.leb_total|exact string_leb_trans|apply String.leb_antisym].
Qed.

(** * The children map of the forward converter *)

Lemma opt_eqb_refl k : opt_eqb k k = true.
Proof. apply opt_eqb_eq; reflexivity. Qed.

Lemma children_get_append cm p c k :
  children_get (children_append cm p c) k =
  if opt_eqb k p then children_get cm k ++ [c] else children_get cm k.
Proof.
  unfold children_get, children_append.
  destruct (dict_get opt_eqb cm p) as [lp|] eqn:Ep;
    rewrite (dict_get_set opt_eqb_eq);
    destruct (opt_eqb k p) eqn:E; try reflexivity;
    apply opt_eqb_eq in E; subst k; rewrite Ep; reflexivity.
Qed.

Lemma group_children_from l : forall cm k,
  children_get
    (fold_left
       (fun cm it => children_append cm (ALNode.parent_id (snd it)) (fst it))
       l cm) k
  = children_get cm k ++ children_ids l k.
Proof.
  induction l as [|[id n] l IH]; intros cm k; simpl.
  - unfold children_ids; simpl; rewrite app_nil_r; reflexivity.
  - rewrite IH, children_get_append. unfold children_ids; simpl.
    destruct (opt_eqb k (ALNode.parent_id n)); simpl;
      [rewrite <- app_assoc|]; reflexivity.
Qed.

Lemma children_get_sorted cm k :
  children_get (sort_children cm) k = sort_strings (children_get cm k).
Proof.
  unfold children_get, sort_children.
  induction cm as [|[k' v] cm IH]; simpl; [reflexivity|].
  destruct (opt_eqb k k'); [reflexivity|exact IH].
Qed.

Lemma children_map_get al k :
  children_get (children_map al) k =
  sort_strings (children_ids (AL.nodes al) k).
Proof.
  unfold children_map, group_children.
  rewrite children_get_sorted, group_children_from; reflexivity.
Qed.

Lemma children_ids_In l k c :
  In c (children_ids l k) <->
  exists n, In (c, n) l /\ ALNode.parent_id n = k.
Proof.
  unfold children_ids; rewrite in_map_iff; split.
  - intros ([c' n] & <- & H); apply filter_In in H; destruct H as (H & E).
    apply opt_eqb_eq in E; simpl in *; eauto.
  - intros (n & H & E); exists (c, n); split; [reflexivity|].
    apply filter_In; split; [assumption|].
    apply opt_eqb_eq; simpl; auto.
Qed.

Lemma NoDup_keys_filter {V : Type} (f : string * V -> bool) (l : dict string V) :
  NoDup (dict_keys l) -> NoDup (dict_keys (filter f l)).
Proof.
  unfold dict_keys; induction l as [|x l IH]; simpl; intros H; [constructor|].
  inversion H as [|? ? Hx Hl]; subst.
  destruct (f x); simpl; [|auto].
  constructor; [|auto].
  intros Hin; apply Hx.
  apply in_map_iff in Hin; destruct Hin as (y & Hy & Hin).
  apply filter_In in Hin; rewrite <- Hy; apply in_map; tauto.
Qed.

Lemma children_ids_NoDup l k : NoDup (dict_keys l) -> NoDup (children_ids l k).
Proof. intros H; unfold children_ids; apply NoDup_keys_filter; exact H. Qed.

Lemma children_ids_perm l1 l2 k :
  Permutation l1 l2 -> Permutation (children_ids l1 k) (children_ids l2 k).
Proof.
  intros H; unfold children_ids; apply Permutation_map.
  induction H; simpl.
  - constructor.
  - destruct (opt_eqb k _); [constructor|]; assumption.
  - destruct (opt_eqb k _), (opt_eqb k _); try apply Permutation_refl.
    apply perm_swap.
  - eapply perm_trans; eauto.
Qed.

(** * Insertion order *)

Lemma index_of_lt x l : In x l <-> index_of x l < List.length l.
Proof.
  induction l as [|y l IH]; simpl; [split; [tauto|lia]|].
  destruct (String.eqb x y) eqn:E.
  - apply String.eqb_eq in E; subst; split; [lia|auto].
  - apply String.eqb_neq in E; rewrite IH; split.
    + intros [H|H]; [congruence|lia].
    + intros H; right; lia.
Qed.

Lemma index_of_app_in x l1 l2 :
  In x l1 -> index_of x (l1 ++ l2) = index_of x l1.
Proof.
  induction l1 as [|y l1 IH]; simpl; [tauto|].
  destruct (String.eqb x y) eqn:E; [reflexivity|].
  apply String.eqb_neq in E. intros [H|H]; [congruence|]. now rewrite IH.
Qed.

Lemma index_of_app_notin x l1 l2 :
  ~ In x l1 -> index_of x (l1 ++ l2) = List.length l1 + index_of x l2.
Proof.
  induction l1 as [|y l1 IH]; simpl; [reflexivity|].
  intros H. destruct (String.eqb x y) eqn:E.
  - apply String.eqb_eq in E; subst; tauto.
  - rewrite IH; tauto.
Qed.

Lemma dict_keys_length {K V : Type} (d : dict K V) :
  List.length (dict_keys d) = List.length d.
Proof. apply length_map. Qed.

Lemma ordered_NoDup l : ordered l -> NoDup (dict_keys l).
Proof.
  induction 1 as [|l id p nm Hl IH Hid Hp]; [constructor|].
  rewrite dict_keys_app; simpl. apply NoDup_app; [exact IH| |].
  - repeat constructor; simpl; tauto.
  - intros x Hx [<-|[]].
    apply (dict_mem_false String.eqb_eq) in Hid; contradiction.
Qed.

Lemma ordered_node_id l id n :
  ordered l -> In (id, n) l -> ALNode.node_id n = id.
Proof.
  induction 1 as [|l id' p nm Hl IH Hid Hp]; [intros []|].
  intros H; apply in_app_or in H; destruct H as [H|[H|[]]]; [auto|].
  inversion H; reflexivity.
Qed.

Lemma ordered_rank l : ordered l -> forall c p,
  parent_of (AL.mk l) c p ->
  index_of p (dict_keys l) < index_of c (dict_keys l) /\
  index_of c (dict_keys l) < List.length l.
Proof.
  induction 1 as [|l id q nm Hl IH Hid Hq]; intros c p (n & Hn & Hp).
  - discriminate.
  - rewrite al_get_snoc in Hn by assumption.
    rewrite dict_keys_app, length_app; simpl.
    pose proof (proj1 (dict_mem_false String.eqb_eq _ _) Hid) as Hnid.
    destruct (String.eqb c id) eqn:E.
    + apply String.eqb_eq in E; subst c. inversion Hn; subst n; simpl in Hp.
      subst q. apply (dict_mem_In String.eqb_eq) in Hq.
      rewrite (index_of_app_in _ _ _ Hq), (index_of_app_notin _ _ _ Hnid).
      simpl; rewrite String.eqb_refl.
      apply index_of_lt in Hq; rewrite dict_keys_length in *; lia.
    + destruct (IH c p) as (H1 & H2); [exists n; auto|].
      rewrite <- (dict_keys_length l) in H2.
      pose proof (proj2 (index_of_lt _ _) H2) as Hc.
      assert (Hp' : In p (dict_keys l)) by (apply index_of_lt; lia).
      rewrite !index_of_app_in by assumption.
      rewrite dict_keys_length in H2; lia.
Qed.

(** * Strings *)

Lemma prefix_refl s : String.prefix s s = true.
Proof.
  induction s as [|a s IH]; simpl; [reflexivity|].
  destruct (ascii_dec a a); [exact IH|congruence].
Qed.

Lemma prefix_append_r a : forall b c,
  String.prefix a b = true -> String.prefix a (b +++ c) = true.
Proof.
  induction a as [|x a IH]; intros [|y b] c; simpl; auto; try discriminate.
  - destruct c; reflexivity.
  - destruct (ascii_dec x y); [apply IH|discriminate].
Qed.

Lemma prefix_append_self a c : String.prefix a (a +++ c) = true.
Proof. apply prefix_append_r, prefix_refl. Qed.

Lemma cur_path_prefix sep id pp :
  String.prefix sep pp = true -> String.prefix sep (cur_path sep id pp) = true.
Proof.
  intros H; unfold cur_path; destruct (String.eqb pp sep).
  - apply prefix_append_self.
  - apply prefix_append_r; exact H.
Qed.

(** * Descendants in an insertion-ordered tree *)

Section Tree.
Variable al : AL.t.
Hypothesis Hord : ordered (AL.nodes al).

Lemma al_eta : AL.mk (AL.nodes al) = al.
Proof. destruct al; reflexivity. Qed.

Lemma parent_rank c p : parent_of al c p -> rank al p < rank al c.
Proof.
  intros H; rewrite <- al_eta in H.
  apply (ordered_rank Hord) in H; unfold rank; tauto.
Qed.

Lemma al_get_rank c n : al_get al c = Some n -> rank al c < AL.len al.
Proof.
  intros H; unfold rank, AL.len. rewrite <- dict_keys_length.
  apply index_of_lt.
  apply (dict_mem_In String.eqb_eq); unfold dict_mem.
  unfold al_get in H; rewrite H; reflexivity.
Qed.

Lemma al_get_In c n : al_get al c = Some n <-> In (c, n) (AL.nodes al).
Proof.
  split; [apply (dict_get_Some_In String.eqb_eq)|].
  apply (dict_get_In String.eqb_eq), ordered_NoDup, Hord.
Qed.

Lemma desc_rank y x : desc al y x -> rank al x <= rank al y.
Proof.
  induction 1 as [|y z x H _ IH]; [lia|].
  apply parent_rank in H; lia.
Qed.

Lemma desc_child y c x : desc al y c -> parent_of al c x -> desc al y x.
Proof.
  induction 1 as [|y z c H _ IH]; intros Hc.
  - eapply Relation_Operators.rt1n_trans; [exact Hc|apply Relation_Operators.rt1n_refl].
  - eapply Relation_Operators.rt1n_trans; [exact H|apply IH; exact Hc].
Qed.

Lemma desc_linear y a b : desc al y a -> desc al y b ->
  desc al a b \/ desc al b a.
Proof.
  induction 1 as [|y z a H Hza IH]; intros Hb; [left; exact Hb|].
  inversion Hb as [|z' ? H' Hzb]; subst.
  - right; eapply Relation_Operators.rt1n_trans; eauto.
  - apply IH; rewrite (parent_of_fun H H'); exact Hzb.
Qed.

Lemma desc_under_sibling c c' k :
  child_in al c k -> child_in al c' k -> desc al c c' -> c = c'.
Proof.
  intros (n & Hn & Hk) (n' & Hn' & Hk') H.
  inversion H as [|q ? Hq Hqc']; subst; [reflexivity|].
  exfalso. destruct Hq as (m & Hm & Hq).
  assert (Hp : parent_of al c' q).
  { exists n'; split; [assumption|]. congruence. }
  apply parent_rank in Hp. apply desc_rank in Hqc'. lia.
Qed.

Lemma siblings_disjoint c c' k y :
  child_in al c k -> child_in al c' k ->
  desc al y c -> desc al y c' -> c = c'.
Proof.
  intros Hc Hc' Hy Hy'.
  destruct (desc_linear Hy Hy') as [H|H].
  - eapply desc_under_sibling; eauto.
  - symmetry; eapply desc_under_sibling; eauto.
Qed.

Lemma kids_In k c :
  In c (children_get (children_map al) k) <-> child_in al c k.
Proof.
  rewrite children_map_get.
  split.
  - intros H. apply (Permutation_in _ (sort_strings_perm _)) in H.
    apply children_ids_In in H; destruct H as (n & H & Hk).
    exists n; split; [apply al_get_In|]; assumption.
  - intros (n & H & Hk).
    apply (Permutation_in _ (Permutation_sym (sort_strings_perm _))).
    apply children_ids_In; exists n; split; [apply al_get_In|]; assumption.
Qed.

Lemma kids_NoDup k : NoDup (children_get (children_map al) k).
Proof.
  rewrite children_map_get.
  eapply Permutation_NoDup; [apply Permutation_sym, sort_strings_perm|].
  apply children_ids_NoDup, ordered_NoDup, Hord.
Qed.
End Tree.

(** * The depth-first traversal *)

Lemma mp_add_node_new mp id path nm :
  str_mem (MP.nodes mp) id = false ->
  String.prefix (MP.sep mp) path = true ->
  MP.add_node mp id path nm =
    Ok (MP.mk (MP.sep mp) (MP.nodes mp ++ [(id, MPNode.mk id path nm)])).
Proof.
  intros Hid Hp; unfold MP.add_node, MP.add_node_st, commit.
  rewrite Hid, Hp; simpl.
  rewrite (dict_set_absent _ _ _ _ Hid); reflexivity.
Qed.

Lemma dfs_build_eq al sep cm fuel id pp mp :
  dfs_build al sep cm (S fuel) id pp mp =
  (node <- match al_get al id with
           | Some n => Ok n
           | None => Raise (KeyError id)
           end ;;
   mp1 <- MP.add_node mp id (cur_path sep id pp) (ALNode.name node) ;;
   foldM (fun c m => dfs_build al sep cm fuel c (cur_path sep id pp) m)
     (children_get cm (Some id)) mp1).
Proof. reflexivity. Qed.

Lemma visit_post_nil al sep pp : visit_post al sep [] pp [].
Proof.
  unfold visit_post; simpl; repeat split; try constructor;
    intros; contradiction.
Qed.

Lemma str_mem_app_false {V : Type} (d1 d2 : dict string V) y :
  ~ In y (dict_keys d1) -> ~ In y (dict_keys d2) ->
  str_mem (d1 ++ d2) y = false.
Proof.
  intros H1 H2; apply (dict_mem_false String.eqb_eq).
  rewrite dict_keys_app; intros H; apply in_app_or in H; tauto.
Qed.

Section Traversal.
Variable al : AL.t.
Variable sep : string.
Hypothesis Hord : ordered (AL.nodes al).

Local Abbreviation cm := (children_map al).

Lemma visit_spec : forall fuel k pp cs mp,
  (forall c, In c cs -> child_in al c k /\ AL.len al <= fuel + rank al c) ->
  NoDup cs ->
  MP.sep mp = sep ->
  String.prefix sep pp = true ->
  (forall c y, In c cs -> desc al y c -> ~ In y (dict_keys (MP.nodes mp))) ->
  exists added,
    foldM (fun c m => dfs_build al sep cm fuel c pp m) cs mp =
      Ok (MP.mk sep (MP.nodes mp ++ added)) /\
    visit_post al sep cs pp added.
Proof.
  assert (Hnil : forall fuel pp mp, MP.sep mp = sep ->
    exists added,
      foldM (fun c m => dfs_build al sep cm fuel c pp m) [] mp =
        Ok (MP.mk sep (MP.nodes mp ++ added)) /\
      visit_post al sep [] pp added).
  { intros fuel pp [s l] Hs; simpl in *; subst s; exists []; split;
      [rewrite app_nil_r; reflexivity|apply visit_post_nil]. }
  induction fuel as [|f IHf]; intros k pp cs;
    induction cs as [|c cs IHcs]; intros mp Hcs Hnd Hsep Hpp Hfresh;
    try (apply Hnil; assumption).
  - exfalso. destruct (Hcs c (or_introl eq_refl)) as ((a & Ha & _) & Hf).
    apply al_get_rank in Ha; lia.
  - destruct (Hcs c (or_introl eq_refl)) as ((a & Ha & Hk) & Hf).
    apply NoDup_cons_iff in Hnd; destruct Hnd as (Hc & Hnd').
    cbn [foldM]; rewrite dfs_build_eq, Ha; cbn [bind].
    rewrite mp_add_node_new;
      [|apply (dict_mem_false String.eqb_eq);
        apply (Hfresh c c (or_introl eq_refl)); apply Relation_Operators.rt1n_refl
       |rewrite Hsep; apply cur_path_prefix; exact Hpp].
    cbn [bind]. rewrite Hsep.
    set (cur := cur_path sep c pp).
    set (m := MPNode.mk c cur (ALNode.name a)).
    assert (Hkid : forall c2, In c2 (children_get cm (Some c)) ->
              parent_of al c2 c).
    { intros c2 H2; apply (kids_In al Hord _ _) in H2.
      destruct H2 as (a2 & Ha2 & Hp2); exists a2; auto. }
    assert (Hself : forall c2, In c2 (children_get cm (Some c)) ->
              desc al c c2 -> False).
    { intros c2 H2 Hd. apply Hkid, (parent_rank Hord) in H2.
      apply (desc_rank Hord) in Hd; lia. }
    assert (Hsib : forall c' y, In c' cs -> desc al y c -> desc al y c' ->
              False).
    { intros c' y H' Hy Hy'. apply Hc.
      destruct (Hcs c' (or_intror H')) as (Hk' & _).
      rewrite (@siblings_disjoint al Hord c c' k y); auto.
      exists a; auto. }
    destruct (IHf (Some c) cur (children_get cm (Some c))
                (MP.mk sep (MP.nodes mp ++ [(c, m)])))
      as (added1 & E1 & N1 & D1 & C1 & K1 & T1).
    { intros c2 H2; split; [apply (kids_In al Hord _ _); exact H2|].
      apply Hkid, (parent_rank Hord) in H2; lia. }
    { apply (kids_NoDup al Hord). }
    { reflexivity. }
    { apply cur_path_prefix; exact Hpp. }
    { intros c2 y H2 Hy; simpl. rewrite dict_keys_app; intros Hin.
      apply in_app_or in Hin; destruct Hin as [Hin|[<-|[]]].
      - apply (Hfresh c y (or_introl eq_refl)); [|exact Hin].
        eapply desc_child; [exact Hy|apply Hkid; exact H2].
      - apply (Hself c2 H2 Hy). }
    rewrite E1; cbn [bind]; simpl MP.nodes.
    assert (Hunder : forall y, In y (dict_keys added1) -> desc al y c).
    { intros y Hy; destruct (D1 y Hy) as (c2 & H2 & Hd).
      eapply desc_child; [exact Hd|apply Hkid; exact H2]. }
    destruct (IHcs (MP.mk sep ((MP.nodes mp ++ [(c, m)]) ++ added1)))
      as (added2 & E2 & N2 & D2 & C2 & K2 & T2).
    { intros c' H'; apply Hcs; right; exact H'. }
    { exact Hnd'. }
    { reflexivity. }
    { exact Hpp. }
    { intros c' y H' Hy; simpl. rewrite !dict_keys_app; intros Hin.
      apply in_app_or in Hin; destruct Hin as [Hin|Hin];
        [apply in_app_or in Hin; destruct Hin as [Hin|[<-|[]]]|].
      - apply (Hfresh c' y (or_intror H') Hy Hin).
      - apply (Hsib c' c H'); [apply Relation_Operators.rt1n_refl|exact Hy].
      - apply (Hsib c' y H'); [apply Hunder; exact Hin|exact Hy]. }
    rewrite E2; simpl MP.nodes.
    exists ((c, m) :: added1 ++ added2); split.
    { rewrite <- !app_assoc; reflexivity. }
    unfold visit_post; simpl dict_keys; rewrite !dict_keys_app.
    split; [|split; [|split; [|split]]].
    + constructor.
      * intros Hin; apply in_app_or in Hin; destruct Hin as [Hin|Hin].
        -- destruct (D1 c Hin) as (c2 & H2 & Hd); apply (Hself c2 H2 Hd).
        -- destruct (D2 c Hin) as (c' & H' & Hd).
           apply (Hsib c' c H'); [apply Relation_Operators.rt1n_refl|exact Hd].
      * apply NoDup_app; [exact N1|exact N2|].
        intros y Hy1 Hy2. destruct (D2 y Hy2) as (c' & H' & Hd).
        apply (Hsib c' y H'); [apply Hunder; exact Hy1|exact Hd].
    + intros y [<-|Hin].
      * exists c; split; [left; reflexivity|apply Relation_Operators.rt1n_refl].
      * apply in_app_or in Hin; destruct Hin as [Hin|Hin].
        -- exists c; split; [left; reflexivity|apply Hunder; exact Hin].
        -- destruct (D2 y Hin) as (c' & H' & Hd).
           exists c'; split; [right; exact H'|exact Hd].
    + intros c' [<-|H']; [left; reflexivity|].
      right; apply in_or_app; right; apply C2; exact H'.
    + intros y c0 [<-|Hin] Hp.
      * right; apply in_or_app; left; apply C1.
        apply (kids_In al Hord _ _); destruct Hp as (a0 & Ha0 & Hp0).
        exists a0; auto.
      * right; apply in_or_app.
        apply in_app_or in Hin; destruct Hin as [Hin|Hin];
          [left; eapply K1|right; eapply K2]; eauto.
    + intros y m' [Heq|Hin].
      * inversion Heq; subst y m'; exists a.
        split; [exact Ha|]. split; [reflexivity|]. split; [reflexivity|].
        left; split; [left; reflexivity|reflexivity].
      * apply in_app_or in Hin; destruct Hin as [Hin|Hin].
        -- destruct (T1 y m' Hin) as (a1 & Ha1 & Hi1 & Hn1 & Hpath).
           exists a1. split; [exact Ha1|]. split; [exact Hi1|].
           split; [exact Hn1|]. right.
           destruct Hpath as [(Hy & Hpath)|(p & pm & Hp & Hpin & Hpath)].
           ++ exists c, m. apply Hkid in Hy.
              destruct Hy as (a1' & Ha1' & Hp1).
              split; [congruence|]. split; [left; reflexivity|exact Hpath].
           ++ exists p, pm. split; [exact Hp|].
              split; [right; apply in_or_app; left; exact Hpin|exact Hpath].
        -- destruct (T2 y m' Hin) as (a2 & Ha2 & Hi2 & Hn2 & Hpath).
           exists a2. split; [exact Ha2|]. split; [exact Hi2|].
           split; [exact Hn2|].
           destruct Hpath as [(Hy & Hpath)|(p & pm & Hp & Hpin & Hpath)].
           ++ left; split; [right; exact Hy|exact Hpath].
           ++ right; exists p, pm. split; [exact Hp|].
              split; [right; apply in_or_app; right; exact Hpin|exact Hpath].
Qed.
End Traversal.

(** * The forward converter on built trees *)

Lemma In_keys {V : Type} (d : dict string V) k v : In (k, v) d -> In k (dict_keys d).
Proof. intros H; change k with (fst (k, v)); apply in_map; exact H. Qed.

Lemma In_keys_inv {V : Type} (d : dict string V) k :
  In k (dict_keys d) -> exists v, In (k, v) d.
Proof.
  unfold dict_keys; rewrite in_map_iff; intros ([k' v] & <- & H); eauto.
Qed.

Lemma al_get_key al id a : al_get al id = Some a -> In id (dict_keys (AL.nodes al)).
Proof.
  intros H; apply (dict_get_Some_In String.eqb_eq) in H.
  eapply In_keys; exact H.
Qed.

Lemma al_mem_get al id : al_mem al id = true <-> exists a, al_get al id = Some a.
Proof.
  unfold al_mem, dict_mem, al_get; destruct (str_get (AL.nodes al) id).
  - split; eauto.
  - split; [discriminate|intros (a & H); discriminate].
Qed.

Theorem convert_al_to_mp_built al sep :
  built al -> exists mp, convert_al_to_mp al sep = Ok mp /\ forward_spec al sep mp.
Proof.
  intros Hb. pose proof (built_ordered Hb) as Hord.
  pose proof (built_forest Hb) as Hfor.
  destruct (@visit_spec al sep Hord (AL.len al) None sep
              (children_get (children_map al) None) (MP.init sep))
    as (added & E & N & D & C & K & T).
  { intros c Hc; split; [apply (kids_In al Hord _ _); exact Hc|lia]. }
  { apply kids_NoDup; exact Hord. }
  { reflexivity. }
  { apply prefix_refl. }
  { intros c y _ _ []. }
  simpl in E. exists (MP.mk sep added); split; [exact E|].
  assert (Hall : forall id, reaches_root al id -> In id (dict_keys added)).
  { induction 1 as [r (a & Ha & Hr)|c p Hcp _ IH].
    - apply C, (kids_In al Hord _ _); exists a; auto.
    - eapply K; eauto. }
  assert (Hsame : forall id, In id (dict_keys added) <->
                             In id (dict_keys (AL.nodes al))).
  { intros id; split.
    - intros H; apply In_keys_inv in H; destruct H as (m & H).
      destruct (T id m H) as (a & Ha & _); eapply al_get_key; eauto.
    - intros H; apply Hall, Hfor.
      apply (dict_mem_In String.eqb_eq); exact H. }
  unfold forward_spec; simpl.
  split; [reflexivity|]. split; [exact N|]. split; [exact Hsame|]. split.
  - unfold MP.len, AL.len; simpl. rewrite <- !dict_keys_length.
    apply Permutation_length, NoDup_Permutation;
      [exact N|apply ordered_NoDup; exact Hord|exact Hsame].
  - intros id m Hin. destruct (T id m Hin) as (a & Ha & Hi & Hn & Hpath).
    exists a. split; [exact Ha|]. split; [exact Hi|]. split; [exact Hn|].
    destruct Hpath as [(Hr & Hpath)|(p & pm & Hp & Hpin & Hpath)].
    + apply (kids_In al Hord _ _) in Hr; destruct Hr as (a' & Ha' & Hr).
      assert (a' = a) by congruence; subst a'. rewrite Hr.
      rewrite Hpath; unfold cur_path; rewrite String.eqb_refl; reflexivity.
    + rewrite Hp; exists pm; auto.
Qed.

(** * Independence of the mapping's iteration order *)

Lemma foldM_ext {A S : Type} (f g : A -> S -> result S) l :
  (forall x s, f x s = g x s) -> forall s, foldM f l s = foldM g l s.
Proof.
  intros H; induction l as [|x l IH]; intros s; simpl; [reflexivity|].
  rewrite H; destruct (g x s); simpl; auto.
Qed.

Lemma dfs_build_ext al1 al2 sep cm1 cm2 :
  (forall id, al_get al1 id = al_get al2 id) ->
  (forall k, children_get cm1 k = children_get cm2 k) ->
  forall fuel id pp mp,
    dfs_build al1 sep cm1 fuel id pp mp = dfs_build al2 sep cm2 fuel id pp mp.
Proof.
  intros Hget Hcm; induction fuel as [|f IH]; intros id pp mp;
    [reflexivity|].
  rewrite !dfs_build_eq, Hget, Hcm.
  destruct (al_get al2 id) as [a|]; [|reflexivity]; cbn [bind].
  destruct (MP.add_node mp id (cur_path sep id pp) (ALNode.name a));
    [|reflexivity|reflexivity]; cbn [bind].
  apply foldM_ext; intros; apply IH.
Qed.

Lemma dict_get_perm {V : Type} (d1 d2 : dict string V) k :
  NoDup (dict_keys d1) -> Permutation d1 d2 -> str_get d1 k = str_get d2 k.
Proof.
  intros Hnd HP.
  assert (Hnd2 : NoDup (dict_keys d2)).
  { eapply Permutation_NoDup; [apply Permutation_map; exact HP|exact Hnd]. }
  destruct (str_get d1 k) as [v|] eqn:E.
  - symmetry; apply (dict_get_In String.eqb_eq); [exact Hnd2|].
    eapply Permutation_in; [exact HP|].
    apply (dict_get_Some_In String.eqb_eq); exact E.
  - symmetry; apply (dict_get_None String.eqb_eq).
    apply (dict_get_None String.eqb_eq) in E. intros H; apply E.
    eapply Permutation_in; [apply Permutation_sym, Permutation_map; exact HP|].
    exact H.
Qed.

Lemma children_map_perm al1 al2 k :
  Permutation (AL.nodes al1) (AL.nodes al2) ->
  children_get (children_map al2) k = children_get (children_map al1) k.
Proof.
  intros HP; rewrite !children_map_get.
  apply sort_strings_perm_eq, Permutation_sym, children_ids_perm; exact HP.
Qed.

Lemma convert_al_to_mp_perm al1 al2 sep :
  NoDup (dict_keys (AL.nodes al1)) ->
  Permutation (AL.nodes al1) (AL.nodes al2) ->
  convert_al_to_mp al1 sep = convert_al_to_mp al2 sep.
Proof.
  intros Hnd HP; unfold convert_al_to_mp.
  rewrite (@children_map_perm al1 al2 None HP).
  unfold AL.len; rewrite <- (Permutation_length HP).
  apply foldM_ext; intros r m; apply dfs_build_ext.
  - intros id; apply dict_get_perm; assumption.
  - intros k; symmetry; apply children_map_perm; exact HP.
Qed.

Lemma opt_eqb_sym a b : opt_eqb a b = opt_eqb b a.
Proof.
  destruct a, b; simpl; auto using String.eqb_sym.
Qed.

Lemma children_ids_roots al : children_ids (AL.nodes al) None = AL.roots al.
Proof.
  unfold children_ids, AL.roots.
  rewrite (filter_ext _ (fun it => opt_eqb (ALNode.parent_id (snd it)) None));
    [reflexivity|].
  intros it; apply opt_eqb_sym.
Qed.

Lemma children_ids_children_of al p :
  children_ids (AL.nodes al) (Some p) = AL.children_of al p.
Proof.
  unfold children_ids, AL.children_of.
  rewrite (filter_ext _
             (fun it => opt_eqb (ALNode.parent_id (snd it)) (Some p)));
    [reflexivity|].
  intros it; apply opt_eqb_sym.
Qed.

(** C4. The forward converter does not depend on the order in which the
    input mapping yields its entries: on two mappings holding the same
    entries it returns the same result, hence the same path for every
    identifier.  Both mappings give the same sibling groups, each in
    ascending lexicographic order; the traversal starts from the sorted
    roots and continues, at every node, with its sorted children.  For a
    tree built by [add_node] the common result is a materialized-path
    tree. *)
Theorem C4_forward_deterministic (al1 al2 : AL.t) (sep : string) :
  NoDup (dict_keys (AL.nodes al1)) ->
  Permutation (AL.nodes al1) (AL.nodes al2) ->
  convert_al_to_mp al1 sep = convert_al_to_mp al2 sep /\
  (forall k,
     children_get (children_map al2) k = children_get (children_map al1) k /\
     StronglySorted str_le (children_get (children_map al1) k)) /\
  (convert_al_to_mp al1 sep =
     foldM (fun r m =>
              dfs_build al1 sep (children_map al1) (AL.len al1) r sep m)
       (sort_strings (AL.roots al1)) (MP.init sep) /\
   forall fuel id pp mp,
     dfs_build al1 sep (children_map al1) (S fuel) id pp mp =
     (node <- match al_get al1 id with
              | Some n => Ok n
              | None => Raise (KeyError id)
              end ;;
      mp1 <- MP.add_node mp id (cur_path sep id pp) (ALNode.name node) ;;
      foldM (fun c m =>
               dfs_build al1 sep (children_map al1) fuel c
                 (cur_path sep id pp) m)
        (sort_strings (AL.children_of al1 id)) mp1)) /\
  (built al1 ->
   exists mp1 mp2,
     convert_al_to_mp al1 sep = Ok mp1 /\
     convert_al_to_mp al2 sep = Ok mp2 /\
     mp1 = mp2 /\
     forall id, option_map MPNode.path (mp_get mp1 id) =
                option_map MPNode.path (mp_get mp2 id)).
Proof.
  intros Hnd HP. split; [apply convert_al_to_mp_perm; assumption|].
  split; [|split].
  - intros k; split; [apply children_map_perm; exact HP|].
    rewrite children_map_get; apply sort_strings_sorted.
  - split.
    + unfold convert_al_to_mp.
      rewrite children_map_get, children_ids_roots; reflexivity.
    + intros fuel id pp mp.
      rewrite dfs_build_eq, children_map_get, children_ids_children_of.
      reflexivity.
  - intros Hb. destruct (convert_al_to_mp_built sep Hb) as (mp & E & _).
    exists mp, mp. split; [exact E|]. split; [|split; reflexivity].
    rewrite <- E; symmetry; apply convert_al_to_mp_perm; assumption.
Qed.

(** * The reverse converter *)

Unset Implicit Arguments.

Lemma path_parts_eq sep path :
  sep <> EmptyString -> path_parts sep path = Ok (parts_of sep path).
Proof.
  intros H; unfold path_parts, py_split.
  apply String.eqb_neq in H; rewrite H; reflexivity.
Qed.

Lemma sort_by_depth_eq mp items :
  MP.sep mp <> EmptyString ->
  sort_by_depth mp items = Ok (by_depth (MP.sep mp) items).
Proof.
  intros H; unfold sort_by_depth, by_depth.
  assert (E : mapM (fun it => d <- depth mp (snd it) ;; Ok (d, it)) items =
              Ok (map (fun it => (depth_of (MP.sep mp) it, it)) items)).
  { induction items as [|it items IH]; [reflexivity|].
    cbn [mapM map]; rewrite IH. unfold depth at 1.
    rewrite (path_parts_eq _ _ H); reflexivity. }
  rewrite E; reflexivity.
Qed.

Lemma sort_by_depth_nil mp : sort_by_depth mp [] = Ok [].
Proof. reflexivity. Qed.

Lemma map_snd_keyed {A : Type} (f : A -> nat) l :
  map snd (map (fun it => (f it, it)) l) = l.
Proof. induction l as [|x l IH]; simpl; [|rewrite IH]; reflexivity. Qed.

Lemma by_depth_perm sep items : Permutation (by_depth sep items) items.
Proof.
  unfold by_depth, sort_keyed.
  rewrite <- (map_snd_keyed (depth_of sep) items) at 2.
  apply Permutation_map, stable_sort_perm.
Qed.

Lemma StronglySorted_map {A B : Type} (R : A -> A -> Prop)
    (R' : B -> B -> Prop) (f : A -> B) l :
  (forall x y, In x l -> In y l -> R x y -> R' (f x) (f y)) ->
  StronglySorted R l -> StronglySorted R' (map f l).
Proof.
  intros H; induction 1 as [|x l Hl IH Hx]; simpl; constructor.
  - apply IH; intros; apply H; simpl; auto.
  - apply Forall_forall; intros y Hy.
    apply in_map_iff in Hy; destruct Hy as (y' & <- & Hy').
    rewrite Forall_forall in Hx; apply H; simpl; auto.
Qed.

Lemma by_depth_sorted sep items :
  StronglySorted (depth_le sep) (by_depth sep items).
Proof.
  unfold by_depth.
  set (keyed := map (fun it => (depth_of sep it, it)) items).
  assert (Hkey : forall x, In x (sort_keyed keyed) ->
                 fst x = depth_of sep (snd x)).
  { intros x Hx.
    apply (Permutation_in _ (stable_sort_perm _ keyed)) in Hx.
    apply in_map_iff in Hx; destruct Hx as (it & <- & _); reflexivity. }
  eapply StronglySorted_map; [|apply stable_sort_sorted].
  - intros x y Hx Hy Hxy; unfold depth_le.
    rewrite <- (Hkey x Hx), <- (Hkey y Hy). apply Nat.leb_le; exact Hxy.
  - intros a b; destruct (Nat.leb_spec (fst a) (fst b)); [left; reflexivity|].
    right; apply Nat.leb_le; lia.
  - intros a b c H1 H2; apply Nat.leb_le in H1, H2; apply Nat.leb_le; lia.
Qed.

Lemma StronglySorted_after {A : Type} (R : A -> A -> Prop) l1 x l2 :
  StronglySorted R (l1 ++ x :: l2) -> Forall (R x) l2.
Proof.
  induction l1 as [|y l1 IH]; simpl; intros H; inversion H; subst; auto.
Qed.

Lemma rebuild_step_eq mp it al :
  MP.sep mp <> EmptyString ->
  parts_of (MP.sep mp) (MPNode.path (snd it)) <> [] ->
  last (parts_of (MP.sep mp) (MPNode.path (snd it))) EmptyString = fst it ->
  rebuild_step mp it al =
  AL.add_node al (fst it)
    (parent_from (parts_of (MP.sep mp) (MPNode.path (snd it))))
    (MPNode.name (snd it)).
Proof.
  intros Hsep Hne Hlast; unfold rebuild_step.
  rewrite (path_parts_eq _ _ Hsep); cbn [bind].
  destruct (parts_of (MP.sep mp) (MPNode.path (snd it))) as [|x xs] eqn:E;
    [congruence|].
  rewrite Hlast, String.eqb_refl; reflexivity.
Qed.

Lemma rebuilt_keys sep items :
  dict_keys (map (rebuilt sep) items) = dict_keys items.
Proof.
  unfold dict_keys; rewrite map_map; apply map_ext; reflexivity.
Qed.

(** The insertion loop on a remainder [post] of the depth-ordered items,
    after the items [pre] have been inserted. *)
Lemma rebuild_loop mp post : forall pre,
  MP.sep mp <> EmptyString ->
  NoDup (dict_keys (pre ++ post)) ->
  StronglySorted (depth_le (MP.sep mp)) (pre ++ post) ->
  (forall it, In it post -> insertable (MP.sep mp) (pre ++ post) it) ->
  ordered (map (rebuilt (MP.sep mp)) pre) ->
  foldM (rebuild_step mp) post (AL.mk (map (rebuilt (MP.sep mp)) pre)) =
    Ok (AL.mk (map (rebuilt (MP.sep mp)) (pre ++ post))) /\
  ordered (map (rebuilt (MP.sep mp)) (pre ++ post)).
Proof.
  induction post as [|x post IH]; intros pre Hsep Hnd Hsort Hins Hord.
  - rewrite app_nil_r; split; [reflexivity|exact Hord].
  - destruct (Hins x (or_introl eq_refl)) as (Hne & Hlast & Hpar).
    cbn [foldM]; rewrite (@rebuild_step_eq mp x _ Hsep Hne Hlast).
    assert (Hfresh : al_mem (AL.mk (map (rebuilt (MP.sep mp)) pre)) (fst x)
                     = false).
    { apply (dict_mem_false String.eqb_eq); simpl; rewrite rebuilt_keys.
      rewrite dict_keys_app in Hnd; simpl in Hnd.
      apply NoDup_remove_2 in Hnd.
      intros H; apply Hnd, in_or_app; left; exact H. }
    assert (Hparent :
      match parent_from (parts_of (MP.sep mp) (MPNode.path (snd x))) with
      | Some q => al_mem (AL.mk (map (rebuilt (MP.sep mp)) pre)) q = true
      | None => True
      end).
    { destruct (parent_from _) as [q|] eqn:Eq; [|exact I].
      destruct (Hpar q eq_refl) as (pm & Hin & Hlt).
      apply (dict_mem_In String.eqb_eq); simpl; rewrite rebuilt_keys.
      apply in_app_or in Hin; destruct Hin as [Hin|[Hin|Hin]].
      - eapply In_keys; exact Hin.
      - subst x; lia.
      - apply StronglySorted_after in Hsort.
        rewrite Forall_forall in Hsort; apply Hsort in Hin.
        unfold depth_le in Hin; lia. }
    unfold AL.add_node; rewrite (@al_add_node_Ok _ _ _ _ Hfresh Hparent).
    unfold commit; cbn [fst snd bind AL.nodes].
    assert (E : map (rebuilt (MP.sep mp)) pre ++
                [(fst x,
                  ALNode.mk (fst x)
                    (parent_from (parts_of (MP.sep mp) (MPNode.path (snd x))))
                    (MPNode.name (snd x)))] =
                map (rebuilt (MP.sep mp)) (pre ++ [x])).
    { rewrite map_app; reflexivity. }
    rewrite E.
    replace (pre ++ x :: post) with ((pre ++ [x]) ++ post)
      by (rewrite <- app_assoc; reflexivity).
    replace (pre ++ x :: post) with ((pre ++ [x]) ++ post) in Hnd, Hsort, Hins
      by (rewrite <- app_assoc; reflexivity).
    apply IH; try assumption.
    + intros it Hit; apply Hins; right; exact Hit.
    + rewrite <- E; apply ordered_snoc; assumption.
Qed.

Lemma parent_from_snoc ps id :
  parent_from (ps ++ [id]) =
  match ps with [] => None | _ :: _ => Some (last ps EmptyString) end.
Proof.
  unfold parent_from; rewrite length_app; simpl.
  destruct ps as [|p ps]; [reflexivity|].
  replace (Nat.eqb (List.length (p :: ps) + 1) 1) with false
    by (symmetry; apply Nat.eqb_neq; simpl; lia).
  f_equal.
  destruct (@exists_last _ (p :: ps)) as (qs & q & E); [discriminate|].
  rewrite E, last_last, length_app; simpl.
  replace (List.length qs + 1 + 1 - 2) with (List.length qs) by lia.
  rewrite <- app_assoc; simpl. rewrite nth_middle; reflexivity.
Qed.

Theorem convert_mp_to_al_insertable mp :
  MP.sep mp <> EmptyString ->
  NoDup (dict_keys (MP.nodes mp)) ->
  (forall it, In it (MP.nodes mp) -> insertable (MP.sep mp) (MP.nodes mp) it) ->
  convert_mp_to_al mp =
    Ok (AL.mk (map (rebuilt (MP.sep mp)) (by_depth (MP.sep mp) (MP.nodes mp))))
  /\ ordered (map (rebuilt (MP.sep mp)) (by_depth (MP.sep mp) (MP.nodes mp))).
Proof.
  intros Hsep Hnd Hins; unfold convert_mp_to_al.
  rewrite (sort_by_depth_eq _ _ Hsep); cbn [bind].
  pose proof (by_depth_perm (MP.sep mp) (MP.nodes mp)) as HP.
  apply (@rebuild_loop mp (by_depth (MP.sep mp) (MP.nodes mp)) []);
    simpl; try assumption.
  - eapply Permutation_NoDup;
      [apply Permutation_map, Permutation_sym; exact HP|exact Hnd].
  - apply by_depth_sorted.
  - intros it Hit.
    destruct (Hins it (Permutation_in _ HP Hit)) as (H1 & H2 & H3).
    split; [exact H1|]. split; [exact H2|].
    intros p Hp; destruct (H3 p Hp) as (pm & Hin & Hlt).
    exists pm; split; [|exact Hlt].
    eapply Permutation_in; [apply Permutation_sym; exact HP|exact Hin].
  - constructor.
Qed.

Lemma well_formed_insertable mp :
  mp_well_formed mp ->
  forall it, In it (MP.nodes mp) -> insertable (MP.sep mp) (MP.nodes mp) it.
Proof.
  intros (Hsep & Hnd & Hwf) [id m] Hit; unfold insertable; simpl.
  destruct (Hwf id m Hit) as (ps & Eps & Hpar). rewrite Eps.
  split; [destruct ps; discriminate|]. split; [apply last_last|].
  intros p Hp; rewrite parent_from_snoc in Hp.
  destruct ps as [|q ps]; [discriminate|]. inversion Hp as [Hp']; clear Hp.
  destruct Hpar as (pm & Hin & Epm); [discriminate|].
  exists pm; split; [exact Hin|].
  unfold depth_of; simpl; rewrite Eps, Epm, length_app; simpl; lia.
Qed.

Lemma parent_from_two ps p id : parent_from (ps ++ [p; id]) = Some p.
Proof.
  change (ps ++ [p; id]) with (ps ++ [p] ++ [id]).
  rewrite app_assoc, parent_from_snoc, last_last.
  destruct (ps ++ [p]) eqn:E; [destruct ps; discriminate|reflexivity].
Qed.

Lemma path_parts_Ok_inv sep path parts :
  path_parts sep path = Ok parts ->
  sep <> EmptyString /\ parts = parts_of sep path.
Proof.
  unfold path_parts, py_split; destruct (String.eqb sep EmptyString) eqn:E;
    [discriminate|].
  apply String.eqb_neq in E; simpl; intros H; inversion H; auto.
Qed.

Lemma sort_by_depth_Ok_inv mp items :
  sort_by_depth mp (MP.nodes mp) = Ok items ->
  items = by_depth (MP.sep mp) (MP.nodes mp) /\
  (MP.sep mp <> EmptyString \/ MP.nodes mp = []).
Proof.
  destruct (String.eqb (MP.sep mp) EmptyString) eqn:E.
  - destruct (MP.nodes mp) as [|it l] eqn:El.
    + intros H; inversion H; auto.
    + unfold sort_by_depth; cbn [mapM]; unfold depth at 1.
      unfold path_parts, py_split; rewrite E; discriminate.
  - apply String.eqb_neq in E; rewrite (sort_by_depth_eq _ _ E).
    intros H; inversion H; auto.
Qed.

(** C5. The reverse converter inserts the nodes in ascending order of
    depth, the number of non-empty segments of the path.  A node whose
    path has one segment is inserted as a root, a deeper node with its
    second-to-last segment as parent.  On a well-formed tree that parent
    has been inserted before, so every [add_node] call succeeds (no
    UnknownParent) and the result obeys insert-before-reference. *)
Theorem C5_reverse_depth_order (mp : MP.t) :
  (MP.sep mp <> EmptyString ->
   exists items, sort_by_depth mp (MP.nodes mp) = Ok items) /\
  (forall items,
     sort_by_depth mp (MP.nodes mp) = Ok items ->
     Permutation items (MP.nodes mp) /\
     StronglySorted (depth_le (MP.sep mp)) items /\
     convert_mp_to_al mp = foldM (rebuild_step mp) items AL.init) /\
  (forall id m al,
     path_parts (MP.sep mp) (MPNode.path m) = Ok [id] ->
     rebuild_step mp (id, m) al = AL.add_node al id None (MPNode.name m)) /\
  (forall id m al ps p,
     path_parts (MP.sep mp) (MPNode.path m) = Ok (ps ++ [p; id]) ->
     rebuild_step mp (id, m) al =
       AL.add_node al id (Some p) (MPNode.name m)) /\
  (mp_well_formed mp ->
   exists items al,
     sort_by_depth mp (MP.nodes mp) = Ok items /\
     convert_mp_to_al mp = Ok al /\
     dict_keys (AL.nodes al) = dict_keys items /\
     ordered (AL.nodes al) /\
     forall id m ps,
       In (id, m) (MP.nodes mp) ->
       parts_of (MP.sep mp) (MPNode.path m) = ps ++ [id] ->
       al_get al id =
         Some (ALNode.mk id
                 match ps with
                 | [] => None
                 | _ :: _ => Some (last ps EmptyString)
                 end
                 (MPNode.name m))).
Proof.
  pose proof (by_depth_perm (MP.sep mp) (MP.nodes mp)) as HP.
  split; [|split; [|split; [|split]]].
  - intros Hsep; eexists; apply sort_by_depth_eq; exact Hsep.
  - intros items E. unfold convert_mp_to_al; rewrite E; cbn [bind].
    apply sort_by_depth_Ok_inv in E; destruct E as (-> & _).
    split; [exact HP|]. split; [apply by_depth_sorted|reflexivity].
  - intros id m al E.
    apply path_parts_Ok_inv in E; destruct E as (Hsep & E).
    rewrite (@rebuild_step_eq mp (id, m) al Hsep); simpl; rewrite <- E;
      [reflexivity|discriminate|reflexivity].
  - intros id m al ps p E.
    apply path_parts_Ok_inv in E; destruct E as (Hsep & E).
    rewrite (@rebuild_step_eq mp (id, m) al Hsep); simpl; rewrite <- E.
    + rewrite parent_from_two; reflexivity.
    + destruct ps; discriminate.
    + change (ps ++ [p; id]) with (ps ++ [p] ++ [id]).
      rewrite app_assoc; apply last_last.
  - intros Hwf. pose proof Hwf as (Hsep & Hnd & _).
    destruct (convert_mp_to_al_insertable mp Hsep Hnd
                (well_formed_insertable mp Hwf)) as (E & Hord).
    exists (by_depth (MP.sep mp) (MP.nodes mp)).
    eexists; split; [apply sort_by_depth_eq; exact Hsep|].
    split; [exact E|]. split; [apply rebuilt_keys|].
    split; [exact Hord|].
    intros id m ps Hin Eps; unfold al_get; simpl.
    apply (dict_get_In String.eqb_eq); [apply ordered_NoDup; exact Hord|].
    rewrite <- parent_from_snoc with (id := id), <- Eps.
    change (In (rebuilt (MP.sep mp) (id, m))
              (map (rebuilt (MP.sep mp))
                 (by_depth (MP.sep mp) (MP.nodes mp)))).
    apply in_map. eapply Permutation_in; [apply Permutation_sym; exact HP|].
    exact Hin.
Qed.

(** * Rejected inputs of the reverse converter *)

Lemma rebuild_step_malformed mp it al :
  MP.sep mp <> EmptyString ->
  parts_of (MP.sep mp) (MPNode.path (snd it)) = [] ->
  rebuild_step mp it al = Raise (MalformedPath (fst it) (MPNode.path (snd it))).
Proof.
  intros Hsep E; unfold rebuild_step.
  rewrite (path_parts_eq _ _ Hsep), E; reflexivity.
Qed.

Lemma rebuild_step_mismatch mp it al :
  MP.sep mp <> EmptyString ->
  parts_of (MP.sep mp) (MPNode.path (snd it)) <> [] ->
  last (parts_of (MP.sep mp) (MPNode.path (snd it))) EmptyString <> fst it ->
  rebuild_step mp it al =
    Raise (PathIdentityMismatch (fst it)
             (last (parts_of (MP.sep mp) (MPNode.path (snd it))) EmptyString)).
Proof.
  intros Hsep Hne Hlast; unfold rebuild_step.
  rewrite (path_parts_eq _ _ Hsep); cbn [bind].
  destruct (parts_of (MP.sep mp) (MPNode.path (snd it))) as [|x xs];
    [congruence|].
  apply String.eqb_neq in Hlast; rewrite Hlast; reflexivity.
Qed.

Lemma rebuild_step_no_fuel mp it al : rebuild_step mp it al <> OutOfFuel.
Proof.
  unfold rebuild_step, path_parts, py_split.
  destruct (String.eqb (MP.sep mp) EmptyString); [discriminate|]; cbn [bind].
  destruct (filter nonempty _) as [|x xs]; [discriminate|].
  destruct (negb _); [discriminate|].
  unfold AL.add_node, commit, AL.add_node_st.
  destruct (str_mem (AL.nodes al) (fst it)); [discriminate|].
  destruct (if Nat.eqb _ 1 then _ else _) as [q|]; [|discriminate].
  destruct (negb _); discriminate.
Qed.

Lemma rebuild_loop_no_fuel mp l : forall al,
  foldM (rebuild_step mp) l al <> OutOfFuel.
Proof.
  induction l as [|x l IH]; intros al; simpl; [discriminate|].
  destruct (rebuild_step mp x al) eqn:E; simpl;
    [apply IH|discriminate|exfalso; exact (rebuild_step_no_fuel _ _ _ E)].
Qed.

Lemma rebuild_loop_Ok_inv mp l : forall al al',
  foldM (rebuild_step mp) l al = Ok al' ->
  forall it, In it l ->
    parts_of (MP.sep mp) (MPNode.path (snd it)) <> [] /\
    last (parts_of (MP.sep mp) (MPNode.path (snd it))) EmptyString = fst it.
Proof.
  induction l as [|x l IH]; intros al al' H it Hit; [destruct Hit|].
  simpl in H; apply bind_Ok_inv in H; destruct H as (al1 & H1 & H2).
  destruct Hit as [<-|Hit]; [|eapply IH; eauto].
  unfold rebuild_step, path_parts, py_split in H1.
  destruct (String.eqb (MP.sep mp) EmptyString); [discriminate|].
  cbn [bind] in H1. fold (parts_of (MP.sep mp) (MPNode.path (snd x))) in H1.
  destruct (parts_of (MP.sep mp) (MPNode.path (snd x))) as [|p ps];
    [discriminate|].
  split; [discriminate|].
  destruct (String.eqb (last (p :: ps) EmptyString) (fst x)) eqn:E;
    [apply String.eqb_eq; exact E|discriminate].
Qed.

(** C6 (amended). The reverse converter fails with MalformedPath when
    some node's path splits into zero segments.  When some node's last
    segment differs from its identifier the conversion fails; the failure
    is PathIdentityMismatch for that node when every node before it in
    depth order has been inserted.  A single node "Z" with path "/X/Y"
    fails with PathIdentityMismatch. *)
Theorem C6_reverse_rejects (mp : MP.t) (id : string) (m : MPNode.t) :
  In (id, m) (MP.nodes mp) ->
  (path_parts (MP.sep mp) (MPNode.path m) = Ok [] ->
   exists id' path', convert_mp_to_al mp = Raise (MalformedPath id' path')) /\
  (forall parts,
     path_parts (MP.sep mp) (MPNode.path m) = Ok parts ->
     parts <> [] -> last parts EmptyString <> id ->
     (exists e, convert_mp_to_al mp = Raise e) /\
     (forall pre post al,
        by_depth (MP.sep mp) (MP.nodes mp) = pre ++ (id, m) :: post ->
        foldM (rebuild_step mp) pre AL.init = Ok al ->
        convert_mp_to_al mp =
          Raise (PathIdentityMismatch id (last parts EmptyString)))) /\
  (forall nm,
     convert_mp_to_al (MP.mk "/" [("Z", MPNode.mk "Z" "/X/Y" nm)]) =
       Raise (PathIdentityMismatch "Z" "Y")).
Proof.
  intros Hin.
  pose proof (by_depth_perm (MP.sep mp) (MP.nodes mp)) as HP.
  pose proof (by_depth_sorted (MP.sep mp) (MP.nodes mp)) as HS.
  split; [|split; [|reflexivity]].
  - intros H; apply path_parts_Ok_inv in H; destruct H as (Hsep & E).
    unfold convert_mp_to_al; rewrite (sort_by_depth_eq _ _ Hsep); cbn [bind].
    apply (Permutation_in _ (Permutation_sym HP)) in Hin.
    destruct (by_depth (MP.sep mp) (MP.nodes mp)) as [|x rest];
      [destruct Hin|].
    assert (Hx : depth_of (MP.sep mp) x <= depth_of (MP.sep mp) (id, m)).
    { destruct Hin as [->|Hin]; [lia|].
      inversion HS as [|? ? _ Hall]; subst.
      rewrite Forall_forall in Hall; apply (Hall _ Hin). }
    unfold depth_of in Hx; simpl in Hx; rewrite <- E in Hx; simpl in Hx.
    exists (fst x), (MPNode.path (snd x)).
    cbn [foldM]; rewrite rebuild_step_malformed; [reflexivity|exact Hsep|].
    destruct (parts_of (MP.sep mp) (MPNode.path (snd x)));
      [reflexivity|simpl in Hx; lia].
  - intros parts H Hne Hlast.
    apply path_parts_Ok_inv in H; destruct H as (Hsep & ->).
    unfold convert_mp_to_al; rewrite (sort_by_depth_eq _ _ Hsep); cbn [bind].
    split.
    + destruct (foldM (rebuild_step mp) (by_depth (MP.sep mp) (MP.nodes mp))
                  AL.init) as [al'|e|] eqn:E.
      * exfalso. apply (Permutation_in _ (Permutation_sym HP)) in Hin.
        destruct (rebuild_loop_Ok_inv _ _ _ _ E _ Hin) as (_ & H).
        apply Hlast; exact H.
      * exists e; reflexivity.
      * exfalso; exact (rebuild_loop_no_fuel _ _ _ E).
    + intros pre post al Epre Eal.
      rewrite Epre, foldM_app, Eal; cbn [bind foldM].
      rewrite (rebuild_step_mismatch mp (id, m) al Hsep Hne Hlast).
      reflexivity.
Qed.

(** * Splitting a path on a one-character delimiter *)

Section SplitChar.
Variable c : ascii.
Local Abbreviation sep := (String c EmptyString).

Lemma prefix_sep_same s : String.prefix sep (String c s) = true.
Proof.
  simpl.
  destruct (ascii_dec c c); [destruct s; reflexivity|congruence].
Qed.

Lemma prefix_sep_other a s : a <> c -> String.prefix sep (String a s) = false.
Proof.
  intros H; simpl.
  destruct (ascii_dec c a); [congruence|reflexivity].
Qed.

Lemma split_sep_head s :
  split_from sep 0 (String c s) = EmptyString :: split_from sep 0 s.
Proof. cbn [split_from]; rewrite prefix_sep_same; reflexivity. Qed.

Lemma split_other_head a s :
  a <> c ->
  split_from sep 0 (String a s) =
  match split_from sep 0 s with
  | seg :: rest => String a seg :: rest
  | [] => [String a EmptyString]
  end.
Proof.
  intros H; cbn [split_from]; rewrite (prefix_sep_other _ _ H); reflexivity.
Qed.

Lemma split_from_not_nil s : split_from sep 0 s <> [].
Proof.
  destruct s as [|a s]; [discriminate|].
  destruct (ascii_dec a c) as [->|H].
  - rewrite split_sep_head; discriminate.
  - rewrite (split_other_head _ _ H).
    destruct (split_from sep 0 s); discriminate.
Qed.

Lemma has_char_cons a s :
  has_char c (String a s) = false -> a <> c /\ has_char c s = false.
Proof.
  simpl; destruct (Ascii.eqb a c) eqn:E; [discriminate|].
  apply Ascii.eqb_neq in E; auto.
Qed.

Lemma split_free id : has_char c id = false -> split_from sep 0 id = [id].
Proof.
  induction id as [|a id IH]; [reflexivity|].
  intros H; apply has_char_cons in H; destruct H as (Ha & H).
  rewrite (split_other_head _ _ Ha), (IH H); reflexivity.
Qed.

Lemma split_snoc id : has_char c id = false -> forall P,
  split_from sep 0 (P +++ sep +++ id) = split_from sep 0 P ++ [id].
Proof.
  intros Hid; induction P as [|a P IH].
  - change (EmptyString +++ sep +++ id) with (String c id).
    rewrite split_sep_head, (split_free _ Hid); reflexivity.
  - change (String a P +++ sep +++ id) with (String a (P +++ sep +++ id)).
    destruct (ascii_dec a c) as [->|H].
    + rewrite !split_sep_head, IH; reflexivity.
    + rewrite !(split_other_head _ _ H), IH.
      pose proof (split_from_not_nil P) as HP.
      destruct (split_from sep 0 P); [congruence|reflexivity].
Qed.

Lemma parts_snoc id P :
  id <> EmptyString -> has_char c id = false ->
  parts_of sep (P +++ sep +++ id) = parts_of sep P ++ [id].
Proof.
  intros Hne Hid; unfold parts_of.
  rewrite (split_snoc _ Hid), filter_app; simpl.
  unfold nonempty at 2. apply String.eqb_neq in Hne; rewrite Hne.
  reflexivity.
Qed.

Lemma parts_of_sep : parts_of sep sep = [].
Proof.
  unfold parts_of. change (split_from sep 0 sep)
    with (split_from sep 0 (String c EmptyString)).
  rewrite split_sep_head; reflexivity.
Qed.
End SplitChar.

(** * Round trip *)

Lemma cur_path_form sep id pp :
  exists Y, cur_path sep id pp = Y +++ sep +++ id.
Proof.
  unfold cur_path; destruct (String.eqb pp sep);
    [exists EmptyString|exists pp]; reflexivity.
Qed.

Section RoundTrip.
Variable al : AL.t.
Variable c : ascii.
Variable mp : MP.t.
Hypothesis Hb : built al.
Hypothesis Hclean : clean_ids c al.
Hypothesis Hspec : forward_spec al (String c EmptyString) mp.

Local Abbreviation sep := (String c EmptyString).

Lemma forward_sep : MP.sep mp = sep.
Proof. exact (proj1 Hspec). Qed.

Lemma entry_clean id m :
  In (id, m) (MP.nodes mp) -> id <> EmptyString /\ has_char c id = false.
Proof.
  intros H; apply Hclean.
  destruct Hspec as (_ & _ & Hkeys & _); apply Hkeys.
  eapply In_keys; exact H.
Qed.

Lemma entry_form id m :
  In (id, m) (MP.nodes mp) -> exists Y, MPNode.path m = Y +++ sep +++ id.
Proof.
  intros H. destruct Hspec as (_ & _ & _ & _ & Hent).
  destruct (Hent id m H) as (a & _ & _ & _ & Hpath).
  destruct (ALNode.parent_id a) as [p|].
  - destruct Hpath as (pm & _ & ->); apply cur_path_form.
  - exists EmptyString; exact Hpath.
Qed.

Lemma entry_parts id m :
  In (id, m) (MP.nodes mp) ->
  exists Z, parts_of sep (MPNode.path m) = Z ++ [id].
Proof.
  intros H. destruct (entry_form id m H) as (Y & ->).
  destruct (entry_clean id m H) as (Hne & Hfree).
  exists (parts_of sep Y); apply parts_snoc; assumption.
Qed.

Lemma entry_path_not_sep id m :
  In (id, m) (MP.nodes mp) -> MPNode.path m <> sep.
Proof.
  intros H E. destruct (entry_parts id m H) as (Z & HZ).
  rewrite E in HZ. rewrite parts_of_sep in HZ.
  destruct Z; discriminate.
Qed.

(** The segments of an output path: the segments of the parent's path
    followed by the node's identifier. *)
Lemma entry_segments id m :
  In (id, m) (MP.nodes mp) ->
  exists a, al_get al id = Some a /\
    MPNode.name m = ALNode.name a /\
    match ALNode.parent_id a with
    | None => parts_of sep (MPNode.path m) = [id]
    | Some p =>
        exists pm, In (p, pm) (MP.nodes mp) /\
          parts_of sep (MPNode.path m) =
            parts_of sep (MPNode.path pm) ++ [id]
    end.
Proof.
  intros H. destruct (entry_clean id m H) as (Hne & Hfree).
  pose proof Hspec as (_ & _ & _ & _ & Hent).
  destruct (Hent id m H) as (a & Ha & _ & Hname & Hpath).
  exists a; split; [exact Ha|]. split; [exact Hname|].
  destruct (ALNode.parent_id a) as [p|].
  - destruct Hpath as (pm & Hpm & Hpath). exists pm; split; [exact Hpm|].
    rewrite Hpath; unfold cur_path.
    pose proof (entry_path_not_sep p pm Hpm) as Hns.
    apply String.eqb_neq in Hns; rewrite Hns.
    apply parts_snoc; assumption.
  - rewrite Hpath.
    change (String c EmptyString +++ id)
      with (EmptyString +++ String c EmptyString +++ id).
    rewrite parts_snoc by assumption; reflexivity.
Qed.

Lemma entry_insertable it :
  In it (MP.nodes mp) ->
  insertable sep (MP.nodes mp) it /\
  exists a, al_get al (fst it) = Some a /\
    MPNode.name (snd it) = ALNode.name a /\
    parent_from (parts_of sep (MPNode.path (snd it))) = ALNode.parent_id a.
Proof.
  destruct it as [id m]; intros H; simpl.
  destruct (entry_segments id m H) as (a & Ha & Hname & Hseg).
  unfold insertable; simpl.
  destruct (ALNode.parent_id a) as [p|] eqn:Ep.
  - destruct Hseg as (pm & Hpm & Eparts).
    destruct (entry_parts p pm Hpm) as (Z & EZ).
    assert (Hpf : parent_from (parts_of sep (MPNode.path m)) = Some p).
    { rewrite Eparts, EZ, parent_from_snoc.
      destruct Z; simpl; [reflexivity|].
      rewrite last_last.
      destruct (Z ++ [p]) eqn:E; [destruct Z; discriminate|reflexivity]. }
    split; [|exists a; rewrite Hpf, Ep; auto].
    rewrite Eparts.
    split; [destruct (parts_of sep (MPNode.path pm)); discriminate|].
    split; [apply last_last|].
    rewrite <- Eparts, Hpf; intros q Hq; inversion Hq; subst q.
    exists pm; split; [exact Hpm|].
    unfold depth_of; simpl; rewrite Eparts, length_app; simpl; lia.
  - rewrite Hseg. split; [|exists a; auto].
    split; [discriminate|]. split; [reflexivity|].
    intros q Hq; discriminate.
Qed.
End RoundTrip.

Lemma dict_perm_of_get {V : Type} (d1 d2 : dict string V) :
  NoDup (dict_keys d1) -> NoDup (dict_keys d2) ->
  (forall k, str_get d1 k = str_get d2 k) -> Permutation d1 d2.
Proof.
  intros H1 H2 Hget.
  apply NoDup_Permutation.
  - eapply NoDup_map_inv; exact H1.
  - eapply NoDup_map_inv; exact H2.
  - intros [k v]; split; intros H.
    + apply (dict_get_Some_In String.eqb_eq); rewrite <- Hget.
      apply (dict_get_In String.eqb_eq); assumption.
    + apply (dict_get_Some_In String.eqb_eq); rewrite Hget.
      apply (dict_get_In String.eqb_eq); assumption.
Qed.

(** C1 (amended). For every adjacency-list tree built by successful
    [add_node] calls whose identifiers are non-empty and do not contain
    the delimiter, a single character, the forward conversion followed by
    the reverse conversion succeeds and yields a tree with the same
    identifiers, the same parent and the same name for every identifier:
    the same entries, possibly in another order. *)
Theorem C1_round_trip (al : AL.t) (c : ascii) :
  built al ->
  clean_ids c al ->
  exists mp al2,
    convert_al_to_mp al (String c EmptyString) = Ok mp /\
    convert_mp_to_al mp = Ok al2 /\
    (forall id, al_get al2 id = al_get al id) /\
    Permutation (AL.nodes al2) (AL.nodes al) /\
    ordered (AL.nodes al2).
Proof.
  intros Hb Hclean.
  destruct (convert_al_to_mp_built (String c EmptyString) Hb)
    as (mp & E & Hspec).
  pose proof Hspec as (Hsep & Hnd & Hkeys & _).
  assert (Hsep' : MP.sep mp <> EmptyString) by (rewrite Hsep; discriminate).
  assert (Hins : forall it, In it (MP.nodes mp) ->
                   insertable (MP.sep mp) (MP.nodes mp) it).
  { intros it Hit; rewrite Hsep.
    apply (entry_insertable al c mp Hclean Hspec it Hit). }
  destruct (convert_mp_to_al_insertable mp Hsep' Hnd Hins) as (E2 & Hord2).
  pose proof (by_depth_perm (MP.sep mp) (MP.nodes mp)) as HP.
  pose proof (built_ordered Hb) as Hord.
  set (al2 := AL.mk (map (rebuilt (MP.sep mp))
                       (by_depth (MP.sep mp) (MP.nodes mp)))) in *.
  assert (Hget : forall id, al_get al2 id = al_get al id).
  { intros id; destruct (al_get al id) as [a|] eqn:Ea.
    - assert (Hin : In id (dict_keys (MP.nodes mp)))
        by (apply Hkeys; eapply al_get_key; exact Ea).
      apply In_keys_inv in Hin; destruct Hin as (m & Hin).
      destruct (entry_insertable al c mp Hclean Hspec (id, m) Hin)
        as (_ & a' & Ha' & Hname & Hpar).
      simpl in Ha', Hname, Hpar.
      assert (a' = a) by congruence; subst a'.
      apply (dict_get_In String.eqb_eq);
        [apply ordered_NoDup; exact Hord2|].
      assert (Ea' : (id, a) = rebuilt (MP.sep mp) (id, m)).
      { unfold rebuilt; simpl; rewrite Hsep, Hpar, Hname.
        apply (dict_get_Some_In String.eqb_eq) in Ea.
        pose proof (@ordered_node_id _ _ _ Hord Ea) as Hid.
        destruct a; simpl in *; subst; reflexivity. }
      rewrite Ea'; apply in_map.
      eapply Permutation_in; [apply Permutation_sym; exact HP|exact Hin].
    - apply (dict_get_None String.eqb_eq); simpl; rewrite rebuilt_keys.
      intros Hin.
      apply (Permutation_in _ (Permutation_map fst HP)) in Hin.
      apply Hkeys in Hin. apply (dict_get_None String.eqb_eq) in Ea.
      contradiction. }
  exists mp, al2. split; [exact E|]. split; [exact E2|].
  split; [exact Hget|]. split; [|exact Hord2].
  apply dict_perm_of_get;
    [apply ordered_NoDup; exact Hord2|apply ordered_NoDup; exact Hord|].
  exact Hget.
Qed.

(** * Output paths of the forward converter *)

Lemma str_app_assoc a b c : (a +++ b) +++ c = a +++ b +++ c.
Proof. induction a as [|x a IH]; simpl; [|rewrite IH]; reflexivity. Qed.

Lemma str_app_length a b :
  String.length (a +++ b) = String.length a + String.length b.
Proof. induction a as [|x a IH]; simpl; [|rewrite IH]; reflexivity. Qed.

Lemma cur_path_not_sep sep id pp :
  id <> EmptyString -> cur_path sep id pp <> sep.
Proof.
  intros Hid E. destruct (cur_path_form sep id pp) as (Y & HY).
  rewrite HY in E. apply (f_equal String.length) in E.
  rewrite !str_app_length in E. destruct id; [congruence|simpl in E; lia].
Qed.

Lemma join_snoc sep ch x :
  ch <> [] -> join sep (ch ++ [x]) = join sep ch +++ sep +++ x.
Proof.
  induction ch as [|y ch IH]; [congruence|]; intros _.
  destruct ch as [|z ch]; [reflexivity|].
  change (join sep ((y :: z :: ch) ++ [x]))
    with (y +++ sep +++ join sep ((z :: ch) ++ [x])).
  rewrite IH by discriminate.
  change (join sep (y :: z :: ch)) with (y +++ sep +++ join sep (z :: ch)).
  rewrite !str_app_assoc; reflexivity.
Qed.

Lemma chain_path_snoc sep ch x :
  ch <> [] -> chain_path sep (ch ++ [x]) = chain_path sep ch +++ sep +++ x.
Proof.
  intros H; unfold chain_path; rewrite (join_snoc sep ch x H).
  rewrite str_app_assoc; reflexivity.
Qed.

Section ForwardPaths.
Variable al : AL.t.
Variable sep : string.
Variable mp : MP.t.
Hypothesis Hb : built al.
Hypothesis Hids : nonempty_ids al.
Hypothesis Hspec : forward_spec al sep mp.

Lemma output_path_not_sep id m :
  In (id, m) (MP.nodes mp) -> MPNode.path m <> sep.
Proof.
  intros H. destruct Hspec as (_ & _ & Hkeys & _ & Hent).
  assert (Hid : id <> EmptyString)
    by (apply Hids, Hkeys; eapply In_keys; exact H).
  destruct (Hent id m H) as (a & _ & _ & _ & Hpath).
  destruct (ALNode.parent_id a) as [p|].
  - destruct Hpath as (pm & _ & ->); apply cur_path_not_sep; exact Hid.
  - rewrite Hpath; intros E. apply (f_equal String.length) in E.
    rewrite str_app_length in E. destruct id; [congruence|simpl in E; lia].
Qed.

(** Depth containment when no identifier is empty. *)
Lemma output_path_extends_parent id m a p :
  In (id, m) (MP.nodes mp) -> al_get al id = Some a ->
  ALNode.parent_id a = Some p ->
  exists pm, In (p, pm) (MP.nodes mp) /\
    MPNode.path m = MPNode.path pm +++ sep +++ id.
Proof.
  intros H Ha Hp. pose proof Hspec as (_ & _ & _ & _ & Hent).
  destruct (Hent id m H) as (a' & Ha' & _ & _ & Hpath).
  assert (a' = a) by congruence; subst a'. rewrite Hp in Hpath.
  destruct Hpath as (pm & Hpm & Hpath). exists pm; split; [exact Hpm|].
  rewrite Hpath; unfold cur_path.
  pose proof (output_path_not_sep p pm Hpm) as Hns.
  apply String.eqb_neq in Hns; rewrite Hns; reflexivity.
Qed.

(** Every output path is the joined chain of identifiers from the
    root, when no identifier is empty. *)
Lemma output_path_is_chain : forall fuel id m,
  In (id, m) (MP.nodes mp) -> rank al id < fuel ->
  chain al fuel id <> [] /\
  MPNode.path m = chain_path sep (chain al fuel id).
Proof.
  pose proof (built_ordered Hb) as Hord.
  pose proof Hspec as (_ & _ & _ & _ & Hent).
  induction fuel as [|f IH]; intros id m H Hr; [lia|].
  destruct (Hent id m H) as (a & Ha & _ & _ & Hpath).
  cbn [chain]; rewrite Ha.
  destruct (ALNode.parent_id a) as [p|] eqn:Ep.
  - destruct (output_path_extends_parent id m a p H Ha Ep)
      as (pm & Hpm & E).
    assert (Hp : parent_of al id p) by (exists a; auto).
    apply (parent_rank Hord) in Hp.
    destruct (IH p pm Hpm) as (Hne & Epm); [lia|].
    split; [destruct (chain al f p); discriminate|].
    rewrite chain_path_snoc by exact Hne. rewrite E, Epm; reflexivity.
  - split; [discriminate|exact Hpath].
Qed.
End ForwardPaths.

(** * Node set and paths of the forward converter *)

Lemma scenario_A_built : built scenario_A_tree.
Proof. exists scenario_A; reflexivity. Qed.

Lemma empty_root_built : built empty_root_tree.
Proof. exists [(EmptyString, None, "r"); ("B", Some EmptyString, "b")]; reflexivity. Qed.

Lemma slash_built : built slash_tree.
Proof. exists [("A/B", None, "n")]; reflexivity. Qed.

(** C2. On every tree built by [add_node] the forward converter returns
    a materialized-path tree with one node per input node: same
    identifiers, same size, and the empty tree for the empty tree.  When
    no identifier is empty, every output path is the delimiter, followed
    by the delimiter-joined chain of identifiers from the root to the
    node.  A child of a root with the empty identifier does not get that
    path: it is recorded under "/B" where the joined chain is "//B". *)
Theorem C2_forward_one_node_per_input :
  (forall al sep, built al ->
     exists mp, convert_al_to_mp al sep = Ok mp /\
       NoDup (dict_keys (MP.nodes mp)) /\
       (forall id, In id (dict_keys (MP.nodes mp)) <->
                   In id (dict_keys (AL.nodes al))) /\
       MP.len mp = AL.len al /\
       (nonempty_ids al ->
        forall id m, In (id, m) (MP.nodes mp) ->
          MPNode.path m = chain_path sep (chain al (AL.len al) id))) /\
  (forall sep, convert_al_to_mp AL.init sep = Ok (MP.init sep)) /\
  (built empty_root_tree /\
   convert_al_to_mp empty_root_tree "/" =
     Ok (MP.mk "/" [(EmptyString, MPNode.mk EmptyString "/" "r");
                    ("B", MPNode.mk "B" "/B" "b")]) /\
   chain empty_root_tree (AL.len empty_root_tree) "B" = [EmptyString; "B"] /\
   chain_path "/" [EmptyString; "B"] = "//B").
Proof.
  split; [|split; [reflexivity|]].
  - intros al sep Hb.
    destruct (convert_al_to_mp_built sep Hb) as (mp & E & Hspec).
    pose proof Hspec as (_ & Hnd & Hkeys & Hlen & _).
    exists mp. split; [exact E|]. split; [exact Hnd|].
    split; [exact Hkeys|]. split; [exact Hlen|].
    intros Hids id m Hin.
    apply (output_path_is_chain al sep mp Hb Hids Hspec).
    + exact Hin.
    + unfold rank, AL.len; rewrite <- dict_keys_length.
      apply index_of_lt, Hkeys; eapply In_keys; exact Hin.
  - split; [exact empty_root_built|]. repeat split; reflexivity.
Qed.

(** C3. When no identifier is empty, the path recorded for a non-root
    node is the path recorded for its parent, followed by the delimiter
    and the node's identifier.  For the child "B" of a root with the
    empty identifier the recorded path is "/B", while the parent's path
    "/" followed by "/" and "B" is "//B". *)
Theorem C3_forward_depth_containment :
  (forall al sep mp id m a p,
     built al -> nonempty_ids al -> convert_al_to_mp al sep = Ok mp ->
     In (id, m) (MP.nodes mp) -> al_get al id = Some a ->
     ALNode.parent_id a = Some p ->
     exists pm, In (p, pm) (MP.nodes mp) /\
       MPNode.path m = MPNode.path pm +++ sep +++ id) /\
  (exists mp m pm,
     convert_al_to_mp empty_root_tree "/" = Ok mp /\
     parent_of empty_root_tree "B" EmptyString /\
     mp_get mp "B" = Some m /\ mp_get mp EmptyString = Some pm /\
     MPNode.path m = "/B" /\
     MPNode.path pm +++ "/" +++ "B" = "//B").
Proof.
  split.
  - intros al sep mp id m a p Hb Hids E Hin Ha Hp.
    destruct (convert_al_to_mp_built sep Hb) as (mp' & E' & Hspec).
    assert (mp' = mp) by congruence; subst mp'.
    apply (output_path_extends_parent al sep mp Hids Hspec id m a p);
      assumption.
  - exists (MP.mk "/" [(EmptyString, MPNode.mk EmptyString "/" "r");
                       ("B", MPNode.mk "B" "/B" "b")]),
      (MPNode.mk "B" "/B" "b"), (MPNode.mk EmptyString "/" "r").
    split; [reflexivity|]. split.
    + exists (ALNode.mk "B" (Some EmptyString) "b"); split; reflexivity.
    + repeat split; reflexivity.
Qed.

(** * Worked examples *)

Lemma C2_forward_one_node_per_input_witness :
  exists mp, convert_al_to_mp two_node_tree "/" = Ok mp /\
    MP.len mp = 2 /\
    forall id m, In (id, m) (MP.nodes mp) ->
      MPNode.path m = chain_path "/" (chain two_node_tree 2 id).
Proof.
  destruct C2_forward_one_node_per_input as (H & _).
  destruct (H two_node_tree "/") as (mp & E & _ & _ & Hlen & Hpath).
  { exists [("A", None, "a"); ("B", Some "A", "b")]; reflexivity. }
  exists mp. split; [exact E|]. split; [exact Hlen|].
  apply Hpath.
  intros id Hid; simpl in Hid; destruct Hid as [<-|[<-|[]]]; discriminate.
Defined.

Lemma C3_forward_depth_containment_witness :
  exists pm, In ("A", pm) (MP.nodes two_node_paths) /\
    "/A/B" = MPNode.path pm +++ "/" +++ "B".
Proof.
  destruct C3_forward_depth_containment as (H & _).
  apply (H two_node_tree "/" two_node_paths "B" (MPNode.mk "B" "/A/B" "b")
           (ALNode.mk "B" (Some "A") "b") "A").
  - exists [("A", None, "a"); ("B", Some "A", "b")]; reflexivity.
  - intros id Hid; simpl in Hid; destruct Hid as [<-|[<-|[]]]; discriminate.
  - reflexivity.
  - simpl; auto.
  - reflexivity.
  - reflexivity.
Defined.

Lemma C4_forward_deterministic_witness :
  convert_al_to_mp two_node_tree "/" =
    convert_al_to_mp two_node_tree_swapped "/" /\
  children_get (children_map two_node_tree_swapped) None =
    children_get (children_map two_node_tree) None.
Proof.
  destruct (C4_forward_deterministic two_node_tree two_node_tree_swapped "/")
    as (H1 & H2 & _ & _).
  - simpl. constructor; [simpl; intros [H|[]]; discriminate|].
    constructor; [intros []|constructor].
  - apply perm_swap.
  - split; [exact H1|exact (proj1 (H2 None))].
Defined.

(** The claim C1 as stated fails: the tree with the single root "A/B" is
    built by [add_node] and converted forward with delimiter "/", but
    the reverse conversion of the result raises PathIdentityMismatch.
    The same happens without the delimiter inside an identifier when the
    delimiter has two characters ("aa", identifiers "a" and "b"), and a
    root with the empty identifier gets a path that the reverse
    converter rejects as malformed. *)
Lemma C1_round_trip_fails_with_delimiter_in_identifier :
  (built slash_tree /\
   convert_al_to_mp slash_tree "/" =
     Ok (MP.mk "/" [("A/B", MPNode.mk "A/B" "/A/B" "n")]) /\
   convert_mp_to_al (MP.mk "/" [("A/B", MPNode.mk "A/B" "/A/B" "n")]) =
     Raise (PathIdentityMismatch "A/B" "B")) /\
  (built a_b_tree /\
   convert_al_to_mp a_b_tree "aa" =
     Ok (MP.mk "aa" [("a", MPNode.mk "a" "aaa" "x");
                     ("b", MPNode.mk "b" "aaaaab" "y")]) /\
   convert_mp_to_al (MP.mk "aa" [("a", MPNode.mk "a" "aaa" "x");
                                 ("b", MPNode.mk "b" "aaaaab" "y")]) =
     Raise (PathIdentityMismatch "b" "ab")) /\
  (built empty_root_tree /\
   (m <- convert_al_to_mp empty_root_tree "/" ;; convert_mp_to_al m) =
     Raise (MalformedPath EmptyString "/")).
Proof.
  split; [|split].
  - split; [exists [("A/B", None, "n")]; reflexivity|]. split; reflexivity.
  - split; [exists [("a", None, "x"); ("b", Some "a", "y")]; reflexivity|].
    split; reflexivity.
  - split; [exact empty_root_built|reflexivity].
Qed.

Lemma C1_round_trip_witness :
  exists mp al2,
    convert_al_to_mp scenario_A_tree "/" = Ok mp /\
    convert_mp_to_al mp = Ok al2 /\
    (forall id, al_get al2 id = al_get scenario_A_tree id) /\
    Permutation (AL.nodes al2) (AL.nodes scenario_A_tree) /\
    ordered (AL.nodes al2).
Proof.
  apply (C1_round_trip scenario_A_tree "/"%char).
  - exists scenario_A; reflexivity.
  - intros id Hid; simpl in Hid.
    destruct Hid as [<-|[<-|[<-|[<-|[]]]]]; split;
      try discriminate; reflexivity.
Defined.

Lemma C5_reverse_depth_order_witness :
  exists items al,
    sort_by_depth child_first_paths (MP.nodes child_first_paths) = Ok items /\
    convert_mp_to_al child_first_paths = Ok al /\
    dict_keys (AL.nodes al) = dict_keys items /\
    al_get al "B" = Some (ALNode.mk "B" (Some "A") "b") /\
    al_get al "A" = Some (ALNode.mk "A" None "a").
Proof.
  destruct (C5_reverse_depth_order child_first_paths) as (_ & _ & _ & _ & Hwf).
  destruct Hwf as (items & al & E1 & E2 & Hk & _ & Hget).
  - split; [discriminate|]. split.
    + simpl. constructor; [simpl; intros [H|[]]; discriminate|].
      constructor; [intros []|constructor].
    + intros id m [H|[H|[]]]; inversion H; subst.
      * exists ["A"]; split; [reflexivity|]. intros _.
        exists (MPNode.mk "A" "/A" "a"); split; [right; left|]; reflexivity.
      * exists []; split; [reflexivity|]. intros H'; congruence.
  - exists items, al. split; [exact E1|]. split; [exact E2|].
    split; [exact Hk|]. split.
    + apply (Hget "B" (MPNode.mk "B" "/A/B" "b") ["A"]);
        [left; reflexivity|reflexivity].
    + apply (Hget "A" (MPNode.mk "A" "/A" "a") []);
        [right; left; reflexivity|reflexivity].
Defined.

Lemma C6_reverse_rejects_witness :
  (exists id' path',
     convert_mp_to_al mismatch_and_empty_paths =
       Raise (MalformedPath id' path')) /\
  convert_mp_to_al scenario_C_paths = Raise (PathIdentityMismatch "Z" "Y").
Proof.
  split.
  - destruct (C6_reverse_rejects mismatch_and_empty_paths "W"
                (MPNode.mk "W" "/" "w")) as (H & _).
    + right; left; reflexivity.
    + apply H; reflexivity.
  - destruct (C6_reverse_rejects scenario_C_paths "Z"
                (MPNode.mk "Z" "/X/Y" "z")) as (_ & H & _).
    + left; reflexivity.
    + destruct (H ["X"; "Y"]) as (_ & H');
        [reflexivity|discriminate|discriminate|].
      apply (H' [] [] AL.init); reflexivity.
Defined.

(** The claim C6 as stated fails: a node whose last segment differs from
    its identifier does not always make the conversion fail with
    PathIdentityMismatch.  Next to a node whose path has no segment the
    failure is MalformedPath; next to a shallower node whose parent is
    missing it is UnknownParent. *)
Lemma C6_mismatch_reported_as_other_failure :
  path_parts "/" "/X/Y" = Ok ["X"; "Y"] /\
  convert_mp_to_al mismatch_and_empty_paths = Raise (MalformedPath "W" "/") /\
  path_parts "/" "/X/Y/W" = Ok ["X"; "Y"; "W"] /\
  convert_mp_to_al mismatch_and_orphan_paths = Raise (UnknownParent "A") /\
  (forall last,
     convert_mp_to_al mismatch_and_orphan_paths <>
       Raise (PathIdentityMismatch "Z" last)).
Proof.
  repeat split; try reflexivity. intros last; discriminate.
Qed.

(** C10. No operation keeps the delimiter out of identifiers: both
    [add_node] operations accept, in an empty container, any identifier
    whatever it contains; the tree with the single root "A/B" is
    converted forward with delimiter "/", and the reverse conversion of
    the result fails with PathIdentityMismatch, so there is no round trip
    on it. *)
Theorem C10_delimiter_inside_identifier :
  (forall id nm,
     AL.add_node AL.init id None nm =
       Ok (AL.mk [(id, ALNode.mk id None nm)])) /\
  (forall sep id nm,
     MP.add_node (MP.init sep) id (sep +++ id) nm =
       Ok (MP.mk sep [(id, MPNode.mk id (sep +++ id) nm)])) /\
  AL.add_node AL.init "A/B" None "n" = Ok slash_tree /\
  built slash_tree /\
  convert_al_to_mp slash_tree "/" =
    Ok (MP.mk "/" [("A/B", MPNode.mk "A/B" "/A/B" "n")]) /\
  convert_mp_to_al (MP.mk "/" [("A/B", MPNode.mk "A/B" "/A/B" "n")]) =
    Raise (PathIdentityMismatch "A/B" "B").
Proof.
  split; [reflexivity|]. split.
  - intros sep id nm; rewrite mp_add_node_new;
      [reflexivity|reflexivity|apply prefix_append_self].
  - split; [reflexivity|]. split; [exact slash_built|]. split; reflexivity.
Qed.

(** * Further properties of the adjacency-list container *)

Lemma children_ids_snoc l id n k :
  children_ids (l ++ [(id, n)]) k =
  children_ids l k ++ (if opt_eqb k (ALNode.parent_id n) then [id] else []).
Proof.
  unfold children_ids; rewrite filter_app, map_app; simpl.
  destruct (opt_eqb k (ALNode.parent_id n)); reflexivity.
Qed.

(** X1. A successful [add_node] appends the new node to the mapping: the
    identifier was absent before, is looked up afterwards as the node
    with the given parent and name, every other lookup is unchanged and
    the size grows by one. *)
Theorem X1_al_add_node_inserts (al al' : AL.t) (id : string)
    (p : option string) (nm : string) :
  AL.add_node al id p nm = Ok al' ->
  al_mem al id = false /\
  AL.nodes al' = AL.nodes al ++ [(id, ALNode.mk id p nm)] /\
  al_get al' id = Some (ALNode.mk id p nm) /\
  (forall x, x <> id -> al_get al' x = al_get al x) /\
  AL.len al' = S (AL.len al).
Proof.
  intros H; apply al_add_node_inv in H; destruct H as (Hid & _ & ->).
  split; [exact Hid|]. split; [reflexivity|]. split; [|split].
  - rewrite al_get_snoc by exact Hid. rewrite String.eqb_refl; reflexivity.
  - intros x Hx; rewrite al_get_snoc by exact Hid.
    apply String.eqb_neq in Hx; rewrite Hx; reflexivity.
  - unfold AL.len; simpl; rewrite length_app; simpl; lia.
Qed.

Lemma X1_al_add_node_inserts_witness :
  al_get (AL.mk (AL.nodes two_node_tree ++
                 [("C", ALNode.mk "C" (Some "A") "c")])) "C" =
    Some (ALNode.mk "C" (Some "A") "c").
Proof.
  destruct (X1_al_add_node_inserts two_node_tree
              (AL.mk (AL.nodes two_node_tree ++
                      [("C", ALNode.mk "C" (Some "A") "c")]))
              "C" (Some "A") "c") as (_ & _ & H & _);
    [reflexivity|exact H].
Defined.

(** X2. After a successful [add_node], [roots()] gains the new
    identifier at its end exactly when no parent was given, and
    [children_of(q)] gains it at its end exactly when [q] is the given
    parent; all other answers of the two queries are unchanged. *)
Theorem X2_add_node_updates_queries (al al' : AL.t) (id : string)
    (p : option string) (nm : string) :
  AL.add_node al id p nm = Ok al' ->
  AL.roots al' =
    AL.roots al ++ (match p with None => [id] | Some _ => [] end) /\
  forall q,
    AL.children_of al' q =
    AL.children_of al q ++
      (if opt_eqb (Some q) p then [id] else []).
Proof.
  intros H; apply al_add_node_inv in H; destruct H as (_ & _ & ->).
  split.
  - rewrite <- !children_ids_roots; simpl.
    rewrite children_ids_snoc; simpl. destruct p; reflexivity.
  - intros q. rewrite <- !children_ids_children_of; simpl.
    rewrite children_ids_snoc; reflexivity.
Qed.

Lemma X2_add_node_updates_queries_witness :
  AL.children_of (AL.mk (AL.nodes two_node_tree ++
                         [("C", ALNode.mk "C" (Some "A") "c")])) "A" =
    ["B"; "C"].
Proof.
  destruct (X2_add_node_updates_queries two_node_tree
              (AL.mk (AL.nodes two_node_tree ++
                      [("C", ALNode.mk "C" (Some "A") "c")]))
              "C" (Some "A") "c") as (_ & H); [reflexivity|].
  exact (H "A").
Defined.

Lemma ordered_parent_present l c p :
  ordered l -> parent_of (AL.mk l) c p ->
  In p (dict_keys l) /\
  index_of p (dict_keys l) < index_of c (dict_keys l).
Proof.
  intros Hord Hcp.
  destruct (@ordered_rank l Hord c p Hcp) as (H1 & H2).
  split; [|exact H1].
  apply index_of_lt; rewrite dict_keys_length; lia.
Qed.

Lemma ordered_no_children_of_absent l q :
  ordered l -> ~ In q (dict_keys l) -> children_ids l (Some q) = [].
Proof.
  intros Hord Hq.
  destruct (children_ids l (Some q)) as [|c cs] eqn:E; [reflexivity|].
  exfalso; apply Hq.
  assert (Hc : In c (children_ids l (Some q))) by (rewrite E; left; reflexivity).
  apply children_ids_In in Hc; destruct Hc as (n & Hin & Hp).
  apply (ordered_parent_present l c q Hord).
  exists n; split; [|exact Hp].
  unfold al_get; simpl.
  apply (dict_get_In String.eqb_eq); [apply ordered_NoDup; exact Hord|exact Hin].
Qed.

(** X3. In a tree built by successful [add_node] calls the identifiers
    are unique, every node is stored under its own identifier, the
    parent of every non-root node is present and was inserted before the
    node, and [children_of] of an identifier that is not in the tree is
    empty. *)
Theorem X3_built_tree_integrity (al : AL.t) :
  built al ->
  NoDup (dict_keys (AL.nodes al)) /\
  (forall id n, al_get al id = Some n -> ALNode.node_id n = id) /\
  (forall c p, parent_of al c p ->
     al_mem al p = true /\ rank al p < rank al c) /\
  (forall q, al_mem al q = false -> AL.children_of al q = []).
Proof.
  intros Hb. pose proof (built_ordered Hb) as Hord.
  destruct al as [l]; simpl in Hord.
  split; [apply ordered_NoDup; exact Hord|]. split; [|split].
  - intros id n H. apply (dict_get_Some_In String.eqb_eq) in H.
    exact (@ordered_node_id l id n Hord H).
  - intros c p Hcp.
    destruct (ordered_parent_present l c p Hord Hcp) as (H1 & H2).
    split; [|exact H2].
    apply (dict_mem_In String.eqb_eq); exact H1.
  - intros q Hq. rewrite <- children_ids_children_of; simpl.
    apply ordered_no_children_of_absent; [exact Hord|].
    apply (dict_mem_false String.eqb_eq); exact Hq.
Qed.

Lemma X3_built_tree_integrity_witness :
  al_mem scenario_A_tree "B" = true /\
  rank scenario_A_tree "B" < rank scenario_A_tree "D" /\
  AL.children_of scenario_A_tree "Q" = [].
Proof.
  destruct (X3_built_tree_integrity scenario_A_tree) as (_ & _ & H & H').
  - exists scenario_A; reflexivity.
  - destruct (H "D" "B") as (H1 & H2).
    + exists (ALNode.mk "D" (Some "B") "Node D"); split; reflexivity.
    + split; [exact H1|]. split; [exact H2|]. apply H'; reflexivity.
Defined.

Lemma flat_map_ext_on {A B : Type} (f g : A -> list B) l :
  (forall a, In a l -> f a = g a) -> flat_map f l = flat_map g l.
Proof.
  induction l as [|x l IH]; intros H; [reflexivity|].
  simpl; rewrite (H x (or_introl eq_refl)), IH; [reflexivity|].
  intros a Ha; apply H; right; exact Ha.
Qed.

Lemma flat_map_add_one (f : string -> list string) (q0 id : string) ks :
  NoDup ks -> In q0 ks ->
  Permutation
    (flat_map (fun q => f q ++ (if String.eqb q q0 then [id] else [])) ks)
    (id :: flat_map f ks).
Proof.
  induction ks as [|k ks IH]; intros Hnd Hin; [destruct Hin|].
  apply NoDup_cons_iff in Hnd; destruct Hnd as (Hk & Hnd).
  cbn [flat_map]. destruct Hin as [->|Hin].
  - rewrite String.eqb_refl.
    assert (E : flat_map
                  (fun q => f q ++ (if String.eqb q q0 then [id] else []))
                  ks = flat_map f ks).
    { apply flat_map_ext_on; intros q Hq.
      destruct (String.eqb q q0) eqn:Eq;
        [apply String.eqb_eq in Eq; subst; contradiction|].
      apply app_nil_r. }
    rewrite E, <- app_assoc; simpl.
    apply Permutation_sym, Permutation_middle.
  - destruct (String.eqb k q0) eqn:Eq;
      [apply String.eqb_eq in Eq; subst; contradiction|].
    rewrite app_nil_r.
    eapply perm_trans; [apply Permutation_app_head, IH; assumption|].
    apply Permutation_sym, Permutation_middle.
Qed.

Lemma ordered_partition l :
  ordered l ->
  Permutation (dict_keys l)
    (children_ids l None ++
     flat_map (fun q => children_ids l (Some q)) (dict_keys l)).
Proof.
  induction 1 as [|l id p nm Hl IH Hid Hp]; [constructor|].
  pose proof (ordered_NoDup Hl) as Hnd.
  pose proof (proj1 (dict_mem_false String.eqb_eq l id) Hid) as Hnid.
  rewrite dict_keys_app; simpl dict_keys.
  rewrite flat_map_app; cbn [flat_map].
  rewrite children_ids_snoc with (k := Some id); simpl ALNode.parent_id.
  rewrite (ordered_no_children_of_absent l id Hl Hnid).
  assert (Hself : opt_eqb (Some id) p = false).
  { destruct p as [q|]; [|reflexivity]. simpl.
    apply String.eqb_neq; intros ->.
    apply (dict_mem_In String.eqb_eq) in Hp; contradiction. }
  rewrite Hself; simpl; rewrite app_nil_r.
  rewrite children_ids_snoc; simpl ALNode.parent_id.
  rewrite (flat_map_ext _ _ (fun q => children_ids_snoc l id _ (Some q))).
  simpl ALNode.parent_id.
  destruct p as [q0|].
  - simpl opt_eqb at 1; rewrite app_nil_r.
    apply (dict_mem_In String.eqb_eq) in Hp.
    eapply perm_trans;
      [|apply Permutation_app_head, Permutation_sym,
          (flat_map_add_one (fun q => children_ids l (Some q)) q0 id _ Hnd Hp)].
    eapply perm_trans; [apply Permutation_app_comm|]. simpl.
    eapply perm_trans; [apply perm_skip, IH|].
    apply Permutation_middle.
  - simpl opt_eqb.
    rewrite (flat_map_ext _ (fun q => children_ids l (Some q)))
      by (intros q; apply app_nil_r).
    rewrite <- app_assoc; simpl.
    eapply perm_trans; [apply Permutation_app_comm|]. simpl.
    eapply perm_trans; [apply perm_skip, IH|].
    apply Permutation_middle.
Qed.

(** X4. In a built tree every node is a root or the child of exactly one
    node of the tree: the identifiers of the mapping are, up to order,
    [roots()] followed by [children_of(q)] for every identifier [q], so
    the size is the number of roots plus the numbers of children. *)
Theorem X4_roots_and_children_partition (al : AL.t) :
  built al ->
  Permutation (dict_keys (AL.nodes al))
    (AL.roots al ++ flat_map (AL.children_of al) (dict_keys (AL.nodes al))) /\
  AL.len al =
    List.length (AL.roots al) +
    List.length (flat_map (AL.children_of al) (dict_keys (AL.nodes al))).
Proof.
  intros Hb. pose proof (built_ordered Hb) as Hord.
  assert (HP : Permutation (dict_keys (AL.nodes al))
                 (AL.roots al ++
                  flat_map (AL.children_of al) (dict_keys (AL.nodes al)))).
  { rewrite <- children_ids_roots.
    rewrite (flat_map_ext (AL.children_of al)
               (fun q => children_ids (AL.nodes al) (Some q)))
      by (intros q; symmetry; apply children_ids_children_of).
    apply ordered_partition; exact Hord. }
  split; [exact HP|].
  unfold AL.len; rewrite <- dict_keys_length.
  rewrite (Permutation_length HP), length_app; reflexivity.
Qed.

Lemma X4_roots_and_children_partition_witness :
  AL.len scenario_A_tree =
    List.length (AL.roots scenario_A_tree) +
    List.length (flat_map (AL.children_of scenario_A_tree)
                   (dict_keys (AL.nodes scenario_A_tree))).
Proof.
  apply (X4_roots_and_children_partition scenario_A_tree).
  exists scenario_A; reflexivity.
Defined.

(** * Further properties of the materialized-path container *)

Lemma mp_add_node_inv mp id path nm mp' :
  MP.add_node mp id path nm = Ok mp' ->
  str_mem (MP.nodes mp) id = false /\
  String.prefix (MP.sep mp) path = true /\
  mp' = MP.mk (MP.sep mp) (MP.nodes mp ++ [(id, MPNode.mk id path nm)]).
Proof.
  unfold MP.add_node, commit, MP.add_node_st.
  destruct (str_mem (MP.nodes mp) id) eqn:Hid; simpl; [discriminate|].
  destruct (String.prefix (MP.sep mp) path) eqn:Hp; simpl; [|discriminate].
  rewrite (dict_set_absent _ _ _ _ Hid).
  intros H; inversion H; auto.
Qed.

Lemma mp_get_snoc l sep id n x :
  str_mem l id = false ->
  mp_get (MP.mk sep (l ++ [(id, n)])) x =
  if String.eqb x id then Some n else str_get l x.
Proof.
  intros Hid; unfold mp_get; simpl. rewrite dict_get_app; simpl.
  destruct (String.eqb x id) eqn:E.
  - apply String.eqb_eq in E; subst x.
    unfold dict_mem in Hid. destruct (str_get l id); [discriminate|reflexivity].
  - destruct (str_get l x); reflexivity.
Qed.

Lemma mp_ok_snoc sep l id path nm :
  mp_ok (MP.mk sep l) -> str_mem l id = false ->
  String.prefix sep path = true ->
  mp_ok (MP.mk sep (l ++ [(id, MPNode.mk id path nm)])).
Proof.
  intros (Hnd & Hent) Hid Hp; split; simpl in *.
  - rewrite dict_keys_app; simpl. apply NoDup_app; [exact Hnd| |].
    + repeat constructor; simpl; tauto.
    + intros x Hx [<-|[]].
      apply (dict_mem_false String.eqb_eq) in Hid; contradiction.
  - intros x m Hin; apply in_app_or in Hin; destruct Hin as [Hin|[Hin|[]]].
    + apply Hent; exact Hin.
    + inversion Hin; subst; simpl; auto.
Qed.

Lemma mp_add_node_ok mp id path nm mp' :
  MP.add_node mp id path nm = Ok mp' -> mp_ok mp ->
  mp_ok mp' /\ MP.sep mp' = MP.sep mp.
Proof.
  intros H Hok; apply mp_add_node_inv in H; destruct H as (Hid & Hp & ->).
  split; [|reflexivity].
  destruct mp as [sep l]; apply mp_ok_snoc; assumption.
Qed.

Lemma mp_init_ok sep : mp_ok (MP.init sep).
Proof. split; simpl; [constructor|intros id m []]. Qed.

(** X5. A successful [add_node] on a materialized-path tree appends the
    node: the identifier was absent and the path starts with the
    delimiter, afterwards the identifier is looked up as the node with
    the given path and name, every other lookup and the delimiter are
    unchanged, and the size grows by one. *)
Theorem X5_mp_add_node_inserts (mp mp' : MP.t) (id path nm : string) :
  MP.add_node mp id path nm = Ok mp' ->
  str_mem (MP.nodes mp) id = false /\
  String.prefix (MP.sep mp) path = true /\
  MP.sep mp' = MP.sep mp /\
  mp_get mp' id = Some (MPNode.mk id path nm) /\
  (forall x, x <> id -> mp_get mp' x = mp_get mp x) /\
  MP.len mp' = S (MP.len mp).
Proof.
  intros H; apply mp_add_node_inv in H; destruct H as (Hid & Hp & ->).
  split; [exact Hid|]. split; [exact Hp|]. split; [reflexivity|].
  split; [|split].
  - rewrite mp_get_snoc by exact Hid. rewrite String.eqb_refl; reflexivity.
  - intros x Hx; rewrite mp_get_snoc by exact Hid.
    apply String.eqb_neq in Hx; rewrite Hx; reflexivity.
  - unfold MP.len; simpl; rewrite length_app; simpl; lia.
Qed.

Lemma X5_mp_add_node_inserts_witness :
  mp_get (MP.mk "/" (MP.nodes two_node_paths ++
                     [("C", MPNode.mk "C" "/A/C" "c")])) "C" =
    Some (MPNode.mk "C" "/A/C" "c").
Proof.
  destruct (X5_mp_add_node_inserts two_node_paths
              (MP.mk "/" (MP.nodes two_node_paths ++
                          [("C", MPNode.mk "C" "/A/C" "c")]))
              "C" "/A/C" "c") as (_ & _ & _ & H & _);
    [reflexivity|exact H].
Defined.

Lemma mp_build_from_ok calls : forall mp mp',
  mp_build_from mp calls = Ok mp' -> mp_ok mp ->
  mp_ok mp' /\ MP.sep mp' = MP.sep mp.
Proof.
  induction calls as [|c calls IH]; intros mp mp' H Hok.
  - inversion H; subst; auto.
  - unfold mp_build_from in H; cbn [foldM] in H.
    apply bind_Ok_inv in H; destruct H as (mp1 & H1 & H2).
    destruct (mp_add_node_ok _ _ _ _ _ H1 Hok) as (Hok1 & Hs1).
    destruct (IH mp1 mp' H2 Hok1) as (Hok' & Hs'). split; [exact Hok'|].
    congruence.
Qed.

Lemma mp_ok_built sep l : mp_ok (MP.mk sep l) -> mp_built (MP.mk sep l).
Proof.
  induction l as [|[id m] l IH] using rev_ind; intros Hok.
  - exists []; reflexivity.
  - destruct Hok as (Hnd & Hent); simpl in *.
    rewrite dict_keys_app in Hnd; simpl in Hnd.
    assert (Hid : str_mem l id = false).
    { apply (dict_mem_false String.eqb_eq).
      apply NoDup_remove_2 in Hnd; rewrite app_nil_r in Hnd; exact Hnd. }
    destruct (Hent id m) as (Hm & Hp); [apply in_or_app; right; left; reflexivity|].
    destruct IH as (calls & Hcalls).
    { split; simpl.
      - apply NoDup_remove_1 in Hnd; rewrite app_nil_r in Hnd; exact Hnd.
      - intros x mx Hx; apply Hent, in_or_app; left; exact Hx. }
    exists (calls ++ [(id, MPNode.path m, MPNode.name m)]).
    unfold mp_built, mp_build_from in *; simpl in *.
    rewrite foldM_app, Hcalls; cbn [bind foldM fst snd].
    rewrite mp_add_node_new; [|exact Hid|exact Hp]. simpl.
    destruct m as [i pth nm]; simpl in *; subst i; reflexivity.
Qed.

(** X6. The materialized-path trees that sequences of successful
    [add_node] calls produce from an empty tree are exactly those with
    unique identifiers in which every node is stored under its own
    identifier and every path starts with the delimiter; nothing else
    about a path is checked. *)
Theorem X6_mp_built_iff_ok (mp : MP.t) : mp_built mp <-> mp_ok mp.
Proof.
  split.
  - intros (calls & H).
    destruct (mp_build_from_ok calls _ _ H (mp_init_ok _)) as (Hok & _).
    exact Hok.
  - destruct mp as [sep l]; apply mp_ok_built.
Qed.

Lemma X6_mp_built_iff_ok_witness :
  mp_built scenario_C_paths /\ mp_ok two_node_paths.
Proof.
  split.
  - apply (proj2 (X6_mp_built_iff_ok scenario_C_paths)).
    split; simpl.
    + constructor; [intros []|constructor].
    + intros id m [H|[]]; inversion H; subst; split; reflexivity.
  - apply (proj1 (X6_mp_built_iff_ok two_node_paths)).
    exists [("A", "/A", "a"); ("B", "/A/B", "b")]; reflexivity.
Defined.

(** * The traversal on arbitrary input *)

Lemma app_eq_elt {A : Type} (a b : list A) x : forall l1 l2,
  a ++ b = l1 ++ x :: l2 ->
  (exists l, a = l1 ++ x :: l /\ l2 = l ++ b) \/
  (exists l, l1 = a ++ l /\ b = l ++ x :: l2).
Proof.
  induction a as [|y a IH]; intros l1 l2 H; simpl in H.
  - right; exists l1; auto.
  - destruct l1 as [|z l1]; simpl in H; inversion H; subst.
    + left; exists a; auto.
    + destruct (IH l1 l2 H2) as [(l & -> & ->)|(l & -> & ->)].
      * left; exists l; auto.
      * right; exists l; auto.
Qed.

Lemma emitted_nil al sep cm cs pp : emitted al sep cm cs pp [].
Proof. intros [|x l1] y m l2 E; discriminate. Qed.

Lemma dfs_emits al sep cm : forall fuel pp cs mp mp',
  foldM (fun c m => dfs_build al sep cm fuel c pp m) cs mp = Ok mp' ->
  exists added,
    MP.nodes mp' = MP.nodes mp ++ added /\
    MP.sep mp' = MP.sep mp /\
    (mp_ok mp -> String.prefix (MP.sep mp) pp = true -> MP.sep mp = sep ->
     mp_ok mp') /\
    emitted al sep cm cs pp added.
Proof.
  induction fuel as [|f IHf]; intros pp cs;
    induction cs as [|c cs IHcs]; intros mp mp' H.
  - inversion H; subst. exists []; rewrite app_nil_r.
    split; [reflexivity|]. split; [reflexivity|].
    split; [auto|apply emitted_nil].
  - discriminate.
  - inversion H; subst. exists []; rewrite app_nil_r.
    split; [reflexivity|]. split; [reflexivity|].
    split; [auto|apply emitted_nil].
  - cbn [foldM] in H. apply bind_Ok_inv in H; destruct H as (mp1' & H1 & H2).
    rewrite dfs_build_eq in H1.
    apply bind_Ok_inv in H1; destruct H1 as (a & Ha & H1).
    destruct (al_get al c) as [a'|] eqn:Ea; [|discriminate].
    inversion Ha; subst a'; clear Ha.
    apply bind_Ok_inv in H1; destruct H1 as (mp1 & Hadd & H1).
    pose proof Hadd as Hadd'.
    apply mp_add_node_inv in Hadd; destruct Hadd as (Hid & Hp & ->).
    destruct (IHf _ _ _ _ H1) as (added1 & N1 & S1 & K1 & E1).
    destruct (IHcs _ _ H2) as (added2 & N2 & S2 & K2 & E2).
    simpl in N1, S1.
    set (mc := MPNode.mk c (cur_path sep c pp) (ALNode.name a)) in *.
    exists ((c, mc) :: added1 ++ added2).
    split; [rewrite N2, N1, <- !app_assoc; reflexivity|].
    split; [congruence|]. split.
    + intros Hok Hpp Hsep. apply K2; [|congruence|congruence].
      apply K1; simpl; [|rewrite Hsep; apply cur_path_prefix; congruence
                        |exact Hsep].
      exact (proj1 (mp_add_node_ok _ _ _ _ _ Hadd' Hok)).
    + intros l1 y m l2 E.
      destruct l1 as [|z l1]; simpl in E; inversion E; subst.
      * split; [exists a; auto|]. left; split; [left|]; reflexivity.
      * destruct (app_eq_elt _ _ _ _ _ H3)
          as [(l & Ea1 & ->)|(l & -> & Ea2)].
        -- destruct (E1 _ _ _ _ Ea1) as (Hn & [(Hy & Hpath)|Hr]).
           ++ split; [exact Hn|]. right; exists c, mc.
              split; [left; reflexivity|]. split; [exact Hy|exact Hpath].
           ++ split; [exact Hn|]. right.
              destruct Hr as (p & pm & Hin & Hr). exists p, pm.
              split; [right; exact Hin|exact Hr].
        -- destruct (E2 _ _ _ _ Ea2) as (Hn & [(Hy & Hpath)|Hr]).
           ++ split; [exact Hn|]. left; split; [right; exact Hy|exact Hpath].
           ++ split; [exact Hn|]. right.
              destruct Hr as (p & pm & Hin & Hr). exists p, pm.
              split; [right; apply in_or_app; right; exact Hin|exact Hr].
Qed.

Lemma convert_al_to_mp_emits al sep mp :
  convert_al_to_mp al sep = Ok mp ->
  MP.sep mp = sep /\ mp_ok mp /\
  emitted al sep (children_map al)
    (children_get (children_map al) None) sep (MP.nodes mp).
Proof.
  intros H; unfold convert_al_to_mp in H.
  destruct (dfs_emits _ _ _ _ _ _ _ _ H) as (added & N & S & K & E).
  simpl in N, S; rewrite N. split; [exact S|]. split; [|exact E].
  apply K; [apply mp_init_ok|apply prefix_refl|reflexivity].
Qed.

(** X7. Whatever mapping the forward converter is given, a tree it
    returns carries the requested delimiter, has unique identifiers,
    stores every node under its own identifier with a path that starts
    with the delimiter (so it is a tree that [add_node] calls build),
    and every node of it copies the name of the input node with the same
    identifier: the converter invents no node. *)
Theorem X7_forward_output_is_well_built (al : AL.t) (sep : string)
    (mp : MP.t) :
  convert_al_to_mp al sep = Ok mp ->
  MP.sep mp = sep /\ mp_ok mp /\ mp_built mp /\
  forall id m, In (id, m) (MP.nodes mp) ->
    exists a, al_get al id = Some a /\ MPNode.name m = ALNode.name a.
Proof.
  intros H. destruct (convert_al_to_mp_emits al sep mp H) as (Hs & Hok & E).
  split; [exact Hs|]. split; [exact Hok|]. split.
  - destruct mp as [s l]; apply mp_ok_built; exact Hok.
  - intros id m Hin. apply in_split in Hin; destruct Hin as (l1 & l2 & Hin).
    destruct (E l1 id m l2 Hin) as ((a & Ha & _ & Hn) & _).
    exists a; auto.
Qed.

Lemma X7_forward_output_is_well_built_witness :
  mp_ok two_node_paths /\ mp_built two_node_paths.
Proof.
  destruct (X7_forward_output_is_well_built two_node_tree_swapped "/"
              two_node_paths) as (_ & H1 & H2 & _); [reflexivity|].
  split; assumption.
Defined.

(** X8. The forward converter emits nodes in pre-order: in the output
    mapping of a built tree every non-root node comes after its parent,
    and its path is the one [dfs_build] forms from the parent's recorded
    path. *)
Theorem X8_forward_parent_precedes_child (al : AL.t) (sep : string)
    (mp : MP.t) (id p : string) (m : MPNode.t) (a : ALNode.t) :
  built al ->
  convert_al_to_mp al sep = Ok mp ->
  In (id, m) (MP.nodes mp) ->
  al_get al id = Some a ->
  ALNode.parent_id a = Some p ->
  exists l1 l2 pm,
    MP.nodes mp = l1 ++ (id, m) :: l2 /\
    In (p, pm) l1 /\
    MPNode.path m = cur_path sep id (MPNode.path pm).
Proof.
  intros Hb H Hin Ha Hp. pose proof (built_ordered Hb) as Hord.
  destruct (convert_al_to_mp_emits al sep mp H) as (_ & _ & E).
  apply in_split in Hin; destruct Hin as (l1 & l2 & Hin).
  exists l1, l2.
  destruct (E l1 id m l2 Hin) as (_ & [(Hr & _)|(q & pm & Hq & Hc & Hpath)]).
  - apply (kids_In al Hord) in Hr; destruct Hr as (a' & Ha' & Hr). congruence.
  - apply (kids_In al Hord) in Hc; destruct Hc as (a' & Ha' & Hc).
    assert (q = p) by congruence; subst q.
    exists pm; auto.
Qed.

Lemma X8_forward_parent_precedes_child_witness :
  exists l1 l2 pm,
    MP.nodes two_node_paths = l1 ++ ("B", MPNode.mk "B" "/A/B" "b") :: l2 /\
    In ("A", pm) l1 /\
    "/A/B" = cur_path "/" "B" (MPNode.path pm).
Proof.
  apply (X8_forward_parent_precedes_child two_node_tree "/"
           two_node_paths "B" "A" (MPNode.mk "B" "/A/B" "b")
           (ALNode.mk "B" (Some "A") "b")).
  - exists [("A", None, "a"); ("B", Some "A", "b")]; reflexivity.
  - reflexivity.
  - right; left; reflexivity.
  - reflexivity.
  - reflexivity.
Defined.

(** * The reverse converter on arbitrary input *)

Lemma rebuild_step_Ok_inv mp it al al' :
  rebuild_step mp it al = Ok al' ->
  MP.sep mp <> EmptyString /\
  parts_of (MP.sep mp) (MPNode.path (snd it)) <> [] /\
  last (parts_of (MP.sep mp) (MPNode.path (snd it))) EmptyString = fst it /\
  AL.nodes al' = AL.nodes al ++ [rebuilt (MP.sep mp) it] /\
  al_mem al (fst it) = false /\
  match parent_from (parts_of (MP.sep mp) (MPNode.path (snd it))) with
  | Some q => al_mem al q = true
  | None => True
  end.
Proof.
  intros H.
  destruct (rebuild_loop_Ok_inv mp [it] al al') with (it := it)
    as (Hne & Hlast); [simpl; rewrite H; reflexivity|left; reflexivity|].
  assert (Hsep : MP.sep mp <> EmptyString).
  { intros E; unfold rebuild_step, path_parts, py_split in H.
    rewrite E in H; simpl in H; discriminate. }
  rewrite (rebuild_step_eq mp it al Hsep Hne Hlast) in H.
  apply al_add_node_inv in H; destruct H as (Hid & Hp & ->).
  repeat split; assumption.
Qed.

Lemma rebuild_loop_Ok mp l : forall al al',
  foldM (rebuild_step mp) l al = Ok al' ->
  AL.nodes al' = AL.nodes al ++ map (rebuilt (MP.sep mp)) l /\
  (ordered (AL.nodes al) -> ordered (AL.nodes al')).
Proof.
  induction l as [|x l IH]; intros al al' H.
  - inversion H; subst; rewrite app_nil_r; auto.
  - cbn [foldM] in H. apply bind_Ok_inv in H; destruct H as (al1 & H1 & H2).
    destruct (rebuild_step_Ok_inv _ _ _ _ H1) as (_ & _ & _ & N & Hid & Hp).
    destruct (IH _ _ H2) as (N' & O').
    split; [rewrite N', N, <- app_assoc; reflexivity|].
    intros Hord; apply O'; rewrite N.
    unfold rebuilt; apply ordered_snoc; assumption.
Qed.

(** X9. Whatever tree the reverse converter is given, when it returns it
    has inserted exactly the input's nodes, in ascending order of depth:
    each under its own identifier with its name and with the parent read
    off its path; every path ended in its node's identifier; and the
    result is a tree that successful [add_node] calls build, of the size
    of the input. *)
Theorem X9_reverse_result (mp : MP.t) (al : AL.t) :
  convert_mp_to_al mp = Ok al ->
  AL.nodes al =
    map (rebuilt (MP.sep mp)) (by_depth (MP.sep mp) (MP.nodes mp)) /\
  built al /\
  AL.len al = MP.len mp /\
  (forall id, In id (dict_keys (AL.nodes al)) <->
              In id (dict_keys (MP.nodes mp))) /\
  forall id m, In (id, m) (MP.nodes mp) ->
    parts_of (MP.sep mp) (MPNode.path m) <> [] /\
    last (parts_of (MP.sep mp) (MPNode.path m)) EmptyString = id.
Proof.
  intros H; unfold convert_mp_to_al in H.
  apply bind_Ok_inv in H; destruct H as (items & Hs & H).
  apply sort_by_depth_Ok_inv in Hs; destruct Hs as (-> & _).
  pose proof (by_depth_perm (MP.sep mp) (MP.nodes mp)) as HP.
  destruct (rebuild_loop_Ok _ _ _ _ H) as (N & O); simpl in N.
  split; [exact N|]. split; [|split; [|split]].
  - destruct al as [l]; apply ordered_built, O; constructor.
  - unfold AL.len, MP.len; rewrite N, length_map.
    apply Permutation_length; exact HP.
  - intros id; rewrite N, rebuilt_keys; split; intros Hin.
    + eapply Permutation_in; [apply Permutation_map; exact HP|exact Hin].
    + eapply Permutation_in;
        [apply Permutation_map, Permutation_sym; exact HP|exact Hin].
  - intros id m Hin.
    apply (rebuild_loop_Ok_inv _ _ _ _ H (id, m)).
    eapply Permutation_in; [apply Permutation_sym; exact HP|exact Hin].
Qed.

Lemma X9_reverse_result_witness :
  AL.nodes two_node_tree =
    map (rebuilt "/") (by_depth "/" (MP.nodes child_first_paths)) /\
  built two_node_tree.
Proof.
  destruct (X9_reverse_result child_first_paths two_node_tree)
    as (H1 & H2 & _); [reflexivity|].
  split; assumption.
Defined.

Lemma rebuild_step_failure mp it al e :
  al_mem al (fst it) = false ->
  rebuild_step mp it al = Raise e -> reverse_failure e.
Proof.
  intros Hid; unfold rebuild_step, path_parts, py_split.
  destruct (String.eqb (MP.sep mp) EmptyString);
    [intros H; inversion H; exact I|]; cbn [bind].
  destruct (filter nonempty _) as [|x xs];
    [intros H; inversion H; exact I|].
  destruct (negb _); [intros H; inversion H; exact I|].
  unfold AL.add_node, commit, AL.add_node_st.
  unfold al_mem in Hid; rewrite Hid.
  destruct (if Nat.eqb _ 1 then _ else _) as [q|]; [|discriminate].
  destruct (negb _); [intros H; inversion H; exact I|discriminate].
Qed.

Lemma rebuild_loop_failure mp l : forall al e,
  NoDup (dict_keys (AL.nodes al) ++ dict_keys l) ->
  foldM (rebuild_step mp) l al = Raise e -> reverse_failure e.
Proof.
  induction l as [|x l IH]; intros al e Hnd H; [discriminate|].
  cbn [foldM] in H. simpl in Hnd.
  assert (Hid : al_mem al (fst x) = false).
  { apply (dict_mem_false String.eqb_eq).
    apply NoDup_remove_2 in Hnd. intros Hin; apply Hnd, in_or_app; auto. }
  destruct (rebuild_step mp x al) as [al1|e1|] eqn:E; simpl in H.
  - apply (IH al1 e); [|exact H].
    destruct (rebuild_step_Ok_inv _ _ _ _ E) as (_ & _ & _ & N & _).
    rewrite N, dict_keys_app; simpl. rewrite <- app_assoc; exact Hnd.
  - inversion H; subst. eapply rebuild_step_failure; eauto.
  - discriminate.
Qed.

(** X10. On a mapping with unique keys the reverse converter returns a
    tree or fails with one of EmptySeparator, MalformedPath,
    PathIdentityMismatch or UnknownParent: the DuplicateIdentifier
    failure of [add_node] cannot occur. *)
Theorem X10_reverse_failures (mp : MP.t) :
  NoDup (dict_keys (MP.nodes mp)) ->
  match convert_mp_to_al mp with
  | Ok _ => True
  | Raise e => reverse_failure e
  | OutOfFuel => False
  end.
Proof.
  intros Hnd; unfold convert_mp_to_al.
  destruct (String.eqb (MP.sep mp) EmptyString) eqn:Es.
  - destruct (MP.nodes mp) as [|it l] eqn:El; [exact I|].
    unfold sort_by_depth; cbn [mapM]; unfold depth at 1.
    unfold path_parts, py_split; rewrite Es; exact I.
  - apply String.eqb_neq in Es.
    rewrite (sort_by_depth_eq _ _ Es); cbn [bind].
    destruct (foldM (rebuild_step mp) (by_depth (MP.sep mp) (MP.nodes mp))
                AL.init) as [al|e|] eqn:E; [exact I| |].
    + apply (rebuild_loop_failure mp (by_depth (MP.sep mp) (MP.nodes mp))
               AL.init e); [|exact E]. simpl.
      eapply Permutation_NoDup; [|exact Hnd].
      apply Permutation_map, Permutation_sym, by_depth_perm.
    + exact (rebuild_loop_no_fuel _ _ _ E).
Qed.

Lemma X10_reverse_failures_witness :
  reverse_failure (UnknownParent "A") /\
  convert_mp_to_al mismatch_and_orphan_paths = Raise (UnknownParent "A").
Proof.
  assert (H : NoDup (dict_keys (MP.nodes mismatch_and_orphan_paths))).
  { simpl. constructor; [simpl; intros [H|[]]; discriminate|].
    constructor; [intros []|constructor]. }
  pose proof (X10_reverse_failures mismatch_and_orphan_paths H) as H'.
  split; [exact H'|reflexivity].
Defined.

(** * Composing the converters *)

Lemma reverse_of_forward al c mp :
  built al -> clean_ids c al ->
  forward_spec al (String c EmptyString) mp ->
  exists al2,
    convert_mp_to_al mp = Ok al2 /\
    Permutation (AL.nodes al2) (AL.nodes al) /\
    ordered (AL.nodes al2).
Proof.
  intros Hb Hclean Hspec.
  pose proof Hspec as (Hsep & Hnd & Hkeys & _).
  assert (Hsep' : MP.sep mp <> EmptyString) by (rewrite Hsep; discriminate).
  assert (Hins : forall it, In it (MP.nodes mp) ->
                   insertable (MP.sep mp) (MP.nodes mp) it).
  { intros it Hit; rewrite Hsep.
    apply (entry_insertable al c mp Hclean Hspec it Hit). }
  destruct (convert_mp_to_al_insertable mp Hsep' Hnd Hins) as (E2 & Hord2).
  pose proof (by_depth_perm (MP.sep mp) (MP.nodes mp)) as HP.
  pose proof (built_ordered Hb) as Hord.
  eexists; split; [exact E2|]. split; [|exact Hord2]. simpl.
  apply dict_perm_of_get;
    [apply ordered_NoDup; exact Hord2|apply ordered_NoDup; exact Hord|].
  intros id; fold (al_get al id); destruct (al_get al id) as [a|] eqn:Ea.
  - assert (Hin : In id (dict_keys (MP.nodes mp)))
      by (apply Hkeys; eapply al_get_key; exact Ea).
    apply In_keys_inv in Hin; destruct Hin as (m & Hin).
    destruct (entry_insertable al c mp Hclean Hspec (id, m) Hin)
      as (_ & a' & Ha' & Hname & Hpar).
    simpl in Ha', Hname, Hpar.
    assert (a' = a) by congruence; subst a'.
    apply (dict_get_In String.eqb_eq); [apply ordered_NoDup; exact Hord2|].
    assert (Ea' : (id, a) = rebuilt (MP.sep mp) (id, m)).
    { unfold rebuilt; simpl; rewrite Hsep, Hpar, Hname.
      apply (dict_get_Some_In String.eqb_eq) in Ea.
      pose proof (@ordered_node_id _ _ _ Hord Ea) as Hid.
      destruct a; simpl in *; subst; reflexivity. }
    rewrite Ea'; apply in_map.
    eapply Permutation_in; [apply Permutation_sym; exact HP|exact Hin].
  - apply (dict_get_None String.eqb_eq); rewrite rebuilt_keys.
    intros Hin.
    apply (Permutation_in _ (Permutation_map fst HP)) in Hin.
    apply Hkeys in Hin. apply (dict_get_None String.eqb_eq) in Ea.
    contradiction.
Qed.

(** X11. For a built tree whose identifiers are non-empty and free of
    the one-character delimiter, converting forward, back and forward
    again returns the materialized-path tree of the first forward
    conversion: the same nodes with the same paths in the same order. *)
Theorem X11_forward_after_round_trip (al : AL.t) (c : ascii) :
  built al -> clean_ids c al ->
  exists mp al2,
    convert_al_to_mp al (String c EmptyString) = Ok mp /\
    convert_mp_to_al mp = Ok al2 /\
    convert_al_to_mp al2 (String c EmptyString) = Ok mp.
Proof.
  intros Hb Hclean.
  destruct (convert_al_to_mp_built (String c EmptyString) Hb)
    as (mp & E & Hspec).
  destruct (reverse_of_forward al c mp Hb Hclean Hspec)
    as (al2 & E2 & HP & Hord2).
  exists mp, al2. split; [exact E|]. split; [exact E2|].
  rewrite <- E.
  apply (@convert_al_to_mp_perm al2 al (String c EmptyString));
    [apply ordered_NoDup; exact Hord2|exact HP].
Qed.

Lemma X11_forward_after_round_trip_witness :
  exists mp al2,
    convert_al_to_mp scenario_A_tree "/" = Ok mp /\
    convert_mp_to_al mp = Ok al2 /\
    convert_al_to_mp al2 "/" = Ok mp.
Proof.
  apply (X11_forward_after_round_trip scenario_A_tree "/"%char).
  - exists scenario_A; reflexivity.
  - intros id Hid; simpl in Hid.
    destruct Hid as [<-|[<-|[<-|[<-|[]]]]]; split;
      try discriminate; reflexivity.
Defined.

Lemma parts_of_nonempty sep path x :
  In x (parts_of sep path) -> x <> EmptyString.
Proof.
  unfold parts_of; intros H; apply filter_In in H; destruct H as (_ & H).
  unfold nonempty in H; apply String.eqb_neq.
  destruct (String.eqb x EmptyString); [discriminate|reflexivity].
Qed.

Lemma chain_path_not_sep sep ps :
  ps <> [] -> (forall x, In x ps -> x <> EmptyString) ->
  chain_path sep ps <> sep.
Proof.
  intros Hne Hall E. destruct ps as [|x r]; [congruence|].
  assert (Hx : x <> EmptyString) by (apply Hall; left; reflexivity).
  unfold chain_path in E. apply (f_equal String.length) in E.
  rewrite str_app_length in E.
  assert (Hj : String.length (join sep (x :: r)) > 0).
  { simpl. destruct r; [|rewrite str_app_length];
      destruct x; try congruence; simpl; lia. }
  lia.
Qed.

Lemma rebuilt_lookup sep items id m :
  NoDup (dict_keys items) -> In (id, m) items ->
  al_get (AL.mk (map (rebuilt sep) (by_depth sep items))) id =
    Some (ALNode.mk id (parent_from (parts_of sep (MPNode.path m)))
            (MPNode.name m)).
Proof.
  intros Hnd Hin; unfold al_get; simpl.
  pose proof (by_depth_perm sep items) as HP.
  apply (dict_get_In String.eqb_eq).
  - rewrite rebuilt_keys.
    eapply Permutation_NoDup;
      [apply Permutation_map, Permutation_sym; exact HP|exact Hnd].
  - change (In (rebuilt sep (id, m)) (map (rebuilt sep) (by_depth sep items))).
    apply in_map.
    eapply Permutation_in; [apply Permutation_sym; exact HP|exact Hin].
Qed.

Section ReverseThenForward.
Variable mp : MP.t.
Variable mp' : MP.t.
Hypothesis Hwf : mp_well_formed mp.
Hypothesis Hcanon : canonical_paths mp.
Hypothesis Hspec :
  forward_spec
    (AL.mk (map (rebuilt (MP.sep mp)) (by_depth (MP.sep mp) (MP.nodes mp))))
    (MP.sep mp) mp'.

Local Abbreviation sep := (MP.sep mp).
Local Abbreviation al2 :=
  (AL.mk (map (rebuilt (MP.sep mp)) (by_depth (MP.sep mp) (MP.nodes mp)))).

Lemma regenerated_path : forall n id m m',
  List.length (parts_of sep (MPNode.path m)) <= n ->
  In (id, m) (MP.nodes mp) -> In (id, m') (MP.nodes mp') ->
  MPNode.path m' = MPNode.path m /\
  MPNode.node_id m' = MPNode.node_id m /\
  MPNode.name m' = MPNode.name m.
Proof.
  pose proof Hwf as (Hsep & Hnd & Hent).
  pose proof Hspec as (_ & _ & _ & _ & Hent').
  induction n as [|n IH]; intros id m m' Hlen Hin Hin';
    destruct (Hent id m Hin) as (ps & Eps & Hpar);
    [rewrite Eps, length_app in Hlen; simpl in Hlen; lia|].
  destruct (Hcanon id m Hin) as (Hnid & Hpath).
  destruct (Hent' id m' Hin') as (a & Ha & Hnid' & Hname' & Hpath').
  rewrite (rebuilt_lookup sep (MP.nodes mp) id m Hnd Hin) in Ha.
  inversion Ha; subst a; clear Ha. simpl in Hname', Hpath'.
  split; [|split; [congruence|exact Hname']].
  rewrite Eps, parent_from_snoc in Hpath'.
  destruct ps as [|q ps'] eqn:Eq.
  - rewrite Hpath', Hpath, Eps; reflexivity.
  - rewrite <- Eq in *.
    assert (Hne : ps <> []) by (rewrite Eq; discriminate).
    destruct (Hpar Hne) as (pm & Hpm & Epm).
    destruct Hpath' as (pm' & Hpm' & Hpath').
    destruct (IH (last ps EmptyString) pm pm') as (Hpp & _);
      [rewrite Epm; rewrite Eps, length_app in Hlen; simpl in Hlen; lia
      |exact Hpm|exact Hpm'|].
    destruct (Hcanon _ pm Hpm) as (_ & Hcp). rewrite Epm in Hcp.
    rewrite Hpath', Hpp; unfold cur_path.
    assert (Hns : MPNode.path pm <> sep).
    { rewrite Hcp; apply chain_path_not_sep; [exact Hne|].
      intros x Hx; rewrite <- Epm in Hx.
      eapply parts_of_nonempty; exact Hx. }
    apply String.eqb_neq in Hns; rewrite Hns.
    rewrite Hpath, Eps, chain_path_snoc by exact Hne.
    rewrite Hcp; reflexivity.
Qed.

Lemma regenerated_lookup id : mp_get mp' id = mp_get mp id.
Proof.
  pose proof Hwf as (Hsep & Hnd & Hent).
  pose proof Hspec as (_ & Hnd' & Hkeys' & _).
  pose proof (by_depth_perm sep (MP.nodes mp)) as HP.
  assert (Hk : In id (dict_keys (MP.nodes mp')) <->
               In id (dict_keys (MP.nodes mp))).
  { rewrite Hkeys'; simpl; rewrite rebuilt_keys; split; intros H.
    - eapply Permutation_in; [apply Permutation_map; exact HP|exact H].
    - eapply Permutation_in;
        [apply Permutation_map, Permutation_sym; exact HP|exact H]. }
  unfold mp_get. destruct (str_get (MP.nodes mp) id) as [m|] eqn:E.
  - apply (dict_get_Some_In String.eqb_eq) in E.
    assert (Hin' : In id (dict_keys (MP.nodes mp')))
      by (apply Hk; eapply In_keys; exact E).
    apply In_keys_inv in Hin'; destruct Hin' as (m' & Hin').
    destruct (regenerated_path _ id m m' (Nat.le_refl _) E Hin')
      as (H1 & H2 & H3).
    apply (dict_get_In String.eqb_eq); [exact Hnd'|].
    assert (m' = m) by (destruct m, m'; simpl in *; congruence).
    subst m'; exact Hin'.
  - apply (dict_get_None String.eqb_eq).
    apply (dict_get_None String.eqb_eq) in E. tauto.
Qed.
End ReverseThenForward.

(** X12. For a well-formed materialized-path tree whose paths have no
    doubled or trailing delimiter, the reverse conversion followed by
    the forward conversion with the same delimiter succeeds and gives
    back every node with its identifier, path and name: the same
    entries, possibly in another order. *)
Theorem X12_reverse_then_forward (mp : MP.t) :
  mp_well_formed mp -> canonical_paths mp ->
  exists al mp',
    convert_mp_to_al mp = Ok al /\
    convert_al_to_mp al (MP.sep mp) = Ok mp' /\
    (forall id, mp_get mp' id = mp_get mp id) /\
    Permutation (MP.nodes mp') (MP.nodes mp).
Proof.
  intros Hwf Hcanon. pose proof Hwf as (Hsep & Hnd & _).
  destruct (convert_mp_to_al_insertable mp Hsep Hnd
              (well_formed_insertable mp Hwf)) as (E & Hord).
  pose proof (ordered_built Hord) as Hb.
  destruct (convert_al_to_mp_built (MP.sep mp) Hb) as (mp' & E' & Hspec).
  eexists; exists mp'. split; [exact E|]. split; [exact E'|].
  assert (Hget : forall id, mp_get mp' id = mp_get mp id)
    by (intros id; apply (regenerated_lookup mp mp' Hwf Hcanon Hspec)).
  split; [exact Hget|].
  apply dict_perm_of_get; [exact (proj1 (proj2 Hspec))|exact Hnd|exact Hget].
Qed.

Lemma X12_reverse_then_forward_witness :
  exists al mp',
    convert_mp_to_al child_first_paths = Ok al /\
    convert_al_to_mp al "/" = Ok mp' /\
    (forall id, mp_get mp' id = mp_get child_first_paths id) /\
    Permutation (MP.nodes mp') (MP.nodes child_first_paths).
Proof.
  apply (X12_reverse_then_forward child_first_paths).
  - split; [discriminate|]. split.
    + simpl. constructor; [simpl; intros [H|[]]; discriminate|].
      constructor; [intros []|constructor].
    + intros id m [H|[H|[]]]; inversion H; subst.
      * exists ["A"]; split; [reflexivity|]. intros _.
        exists (MPNode.mk "A" "/A" "a"); split; [right; left|]; reflexivity.
      * exists []; split; [reflexivity|]. intros H'; congruence.
  - intros id m [H|[H|[]]]; inversion H; subst; split; reflexivity.
Defined.

(** * Segments, depth and prefixes of output paths *)

Lemma output_segments_are_chain al c mp :
  built al -> clean_ids c al ->
  forward_spec al (String c EmptyString) mp ->
  forall fuel id m,
    In (id, m) (MP.nodes mp) -> rank al id < fuel ->
    parts_of (String c EmptyString) (MPNode.path m) = chain al fuel id.
Proof.
  intros Hb Hclean Hspec. pose proof (built_ordered Hb) as Hord.
  induction fuel as [|f IH]; intros id m H Hr; [lia|].
  destruct (entry_segments al c mp Hclean Hspec id m H)
    as (a & Ha & _ & Hseg).
  cbn [chain]; rewrite Ha.
  destruct (ALNode.parent_id a) as [p|] eqn:Ep; [|exact Hseg].
  destruct Hseg as (pm & Hpm & ->).
  assert (Hp : parent_of al id p) by (exists a; auto).
  apply (parent_rank Hord) in Hp.
  rewrite (IH p pm Hpm) by lia. reflexivity.
Qed.

(** X13. For a built tree whose identifiers are non-empty and free of
    the one-character delimiter, splitting the path the forward
    converter records for a node gives back the identifiers from the
    root down to the node, so the depth the reverse converter computes
    for it is the length of that chain. *)
Theorem X13_output_segments_are_ancestors (al : AL.t) (c : ascii)
    (mp : MP.t) (id : string) (m : MPNode.t) :
  built al -> clean_ids c al ->
  convert_al_to_mp al (String c EmptyString) = Ok mp ->
  In (id, m) (MP.nodes mp) ->
  path_parts (MP.sep mp) (MPNode.path m) = Ok (chain al (AL.len al) id) /\
  depth mp m = Ok (List.length (chain al (AL.len al) id)).
Proof.
  intros Hb Hclean E Hin.
  destruct (convert_al_to_mp_built (String c EmptyString) Hb)
    as (mp0 & E0 & Hspec).
  assert (mp0 = mp) by congruence; subst mp0.
  pose proof Hspec as (Hsep & _ & Hkeys & _).
  assert (Hparts : path_parts (MP.sep mp) (MPNode.path m) =
                   Ok (chain al (AL.len al) id)).
  { rewrite path_parts_eq by (rewrite Hsep; discriminate). rewrite Hsep.
    rewrite (output_segments_are_chain al c mp Hb Hclean Hspec
               (AL.len al) id m Hin); [reflexivity|].
    unfold rank, AL.len; rewrite <- dict_keys_length.
    apply index_of_lt, Hkeys; eapply In_keys; exact Hin. }
  split; [exact Hparts|]. unfold depth; rewrite Hparts; reflexivity.
Qed.

Lemma X13_output_segments_are_ancestors_witness :
  path_parts "/" "/A/B" = Ok (chain two_node_tree 2 "B") /\
  depth two_node_paths (MPNode.mk "B" "/A/B" "b") = Ok 2.
Proof.
  apply (X13_output_segments_are_ancestors two_node_tree "/"%char
           two_node_paths "B" (MPNode.mk "B" "/A/B" "b")).
  - exists [("A", None, "a"); ("B", Some "A", "b")]; reflexivity.
  - intros id Hid; simpl in Hid.
    destruct Hid as [<-|[<-|[]]]; split; try discriminate; reflexivity.
  - reflexivity.
  - right; left; reflexivity.
Defined.

(** X14. For a built tree whose identifiers are non-empty and free of
    the one-character delimiter, the forward converter gives different
    nodes different paths: the path of a node determines its
    identifier. *)
Theorem X14_output_paths_are_unique (al : AL.t) (c : ascii) (mp : MP.t)
    (id1 id2 : string) (m1 m2 : MPNode.t) :
  built al -> clean_ids c al ->
  convert_al_to_mp al (String c EmptyString) = Ok mp ->
  In (id1, m1) (MP.nodes mp) -> In (id2, m2) (MP.nodes mp) ->
  MPNode.path m1 = MPNode.path m2 ->
  id1 = id2 /\ m1 = m2.
Proof.
  intros Hb Hclean E H1 H2 Hp.
  destruct (convert_al_to_mp_built (String c EmptyString) Hb)
    as (mp0 & E0 & Hspec).
  assert (mp0 = mp) by congruence; subst mp0.
  destruct (entry_parts al c mp Hclean Hspec id1 m1 H1) as (Z1 & E1).
  destruct (entry_parts al c mp Hclean Hspec id2 m2 H2) as (Z2 & E2).
  rewrite Hp, E2 in E1. apply app_inj_tail in E1; destruct E1 as (_ & E1).
  subst id2. split; [reflexivity|].
  pose proof Hspec as (_ & Hnd & _).
  apply (dict_get_In String.eqb_eq _ _ _ Hnd) in H1.
  apply (dict_get_In String.eqb_eq _ _ _ Hnd) in H2. congruence.
Qed.

Lemma X14_output_paths_are_unique_witness :
  "B" = "B" /\ MPNode.mk "B" "/A/B" "b" = MPNode.mk "B" "/A/B" "b".
Proof.
  apply (X14_output_paths_are_unique two_node_tree "/"%char two_node_paths
           "B" "B" (MPNode.mk "B" "/A/B" "b") (MPNode.mk "B" "/A/B" "b")).
  - exists [("A", None, "a"); ("B", Some "A", "b")]; reflexivity.
  - intros id Hid; simpl in Hid.
    destruct Hid as [<-|[<-|[]]]; split; try discriminate; reflexivity.
  - reflexivity.
  - right; left; reflexivity.
  - right; left; reflexivity.
  - reflexivity.
Defined.

Lemma str_app_nil_r s : s +++ EmptyString = s.
Proof. induction s as [|a s IH]; simpl; [|rewrite IH]; reflexivity. Qed.

Lemma output_path_extends_ancestor al sep mp :
  built al -> nonempty_ids al -> forward_spec al sep mp ->
  forall y x, desc al y x ->
  forall my mx, In (y, my) (MP.nodes mp) -> In (x, mx) (MP.nodes mp) ->
  exists suffix, MPNode.path my = MPNode.path mx +++ suffix.
Proof.
  intros Hb Hids Hspec. pose proof Hspec as (_ & Hnd & _).
  induction 1 as [y|y z x (a & Ha & Hp) _ IH]; intros my mx Hy Hx.
  - exists EmptyString; rewrite str_app_nil_r.
    apply (dict_get_In String.eqb_eq _ _ _ Hnd) in Hy.
    apply (dict_get_In String.eqb_eq _ _ _ Hnd) in Hx. congruence.
  - destruct (output_path_extends_parent al sep mp Hids Hspec y my a z
                Hy Ha Hp) as (pm & Hpm & E).
    destruct (IH pm mx Hpm Hx) as (suffix & E').
    exists (suffix +++ sep +++ y).
    rewrite E, E', str_app_assoc; reflexivity.
Qed.

(** X15. For a built tree without empty identifiers, the path the
    forward converter records for a node starts with the path it
    records for each of the node's ancestors, so a subtree can be
    selected by path prefix. *)
Theorem X15_ancestor_path_is_prefix (al : AL.t) (sep : string) (mp : MP.t)
    (y x : string) (my mx : MPNode.t) :
  built al -> nonempty_ids al ->
  convert_al_to_mp al sep = Ok mp ->
  desc al y x ->
  In (y, my) (MP.nodes mp) -> In (x, mx) (MP.nodes mp) ->
  String.prefix (MPNode.path mx) (MPNode.path my) = true.
Proof.
  intros Hb Hids E Hd Hy Hx.
  destruct (convert_al_to_mp_built sep Hb) as (mp0 & E0 & Hspec).
  assert (mp0 = mp) by congruence; subst mp0.
  destruct (output_path_extends_ancestor al sep mp Hb Hids Hspec y x Hd
              my mx Hy Hx) as (suffix & ->).
  apply prefix_append_self.
Qed.

Lemma X15_ancestor_path_is_prefix_witness :
  String.prefix "/A" "/A/B" = true.
Proof.
  apply (X15_ancestor_path_is_prefix two_node_tree "/" two_node_paths
           "B" "A" (MPNode.mk "B" "/A/B" "b") (MPNode.mk "A" "/A" "a")).
  - exists [("A", None, "a"); ("B", Some "A", "b")]; reflexivity.
  - intros id Hid; simpl in Hid; destruct Hid as [<-|[<-|[]]]; discriminate.
  - reflexivity.
  - eapply Relation_Operators.rt1n_trans; [|apply Relation_Operators.rt1n_refl].
    exists (ALNode.mk "B" (Some "A") "b"); split; reflexivity.
  - right; left; reflexivity.
  - left; reflexivity.
Defined.

(** * Order of equally deep nodes in the reverse converter *)

Section StableFacts.
Variable A : Type.
Variable key : A -> nat.

Local Abbreviation key_leb := (fun a b : A => Nat.leb (key a) (key b)).

Lemma insert_sorted_filter d x l :
  filter (fun a => Nat.eqb (key a) d) (insert_sorted key_leb x l) =
  if Nat.eqb (key x) d
  then x :: filter (fun a => Nat.eqb (key a) d) l
  else filter (fun a => Nat.eqb (key a) d) l.
Proof.
  induction l as [|y l IH]; simpl.
  - destruct (Nat.eqb (key x) d); reflexivity.
  - destruct (Nat.leb (key x) (key y)) eqn:E; simpl.
    + destruct (Nat.eqb (key x) d); reflexivity.
    + rewrite IH. apply Nat.leb_gt in E.
      destruct (Nat.eqb (key x) d) eqn:Ex; [|reflexivity].
      apply Nat.eqb_eq in Ex.
      replace (Nat.eqb (key y) d) with false; [reflexivity|].
      symmetry; apply Nat.eqb_neq; lia.
Qed.

Lemma stable_sort_filter d l :
  filter (fun a => Nat.eqb (key a) d) (stable_sort key_leb l) =
  filter (fun a => Nat.eqb (key a) d) l.
Proof.
  induction l as [|x l IH]; [reflexivity|].
  simpl; rewrite insert_sorted_filter, IH; reflexivity.
Qed.
End StableFacts.

Lemma filter_map_snd {A B : Type} (f : B -> bool) (l : list (A * B)) :
  filter f (map snd l) = map snd (filter (fun x => f (snd x)) l).
Proof.
  induction l as [|x l IH]; simpl; [reflexivity|].
  destruct (f (snd x)); simpl; rewrite IH; reflexivity.
Qed.

Lemma by_depth_stable sep items d :
  filter (fun it => Nat.eqb (depth_of sep it) d) (by_depth sep items) =
  filter (fun it => Nat.eqb (depth_of sep it) d) items.
Proof.
  unfold by_depth, sort_keyed.
  set (keyed := map (fun it => (depth_of sep it, it)) items).
  assert (Hkey : forall x, In x keyed -> depth_of sep (snd x) = fst x).
  { intros x Hx; unfold keyed in Hx; apply in_map_iff in Hx.
    destruct Hx as (it & <- & _); reflexivity. }
  rewrite (filter_map_snd (fun it => Nat.eqb (depth_of sep it) d)).
  rewrite (filter_ext_in _ (fun x => Nat.eqb (fst x) d)).
  - rewrite (stable_sort_filter _ fst d keyed).
    rewrite (filter_ext_in _ (fun x => Nat.eqb (depth_of sep (snd x)) d)).
    + rewrite <- (filter_map_snd (fun it => Nat.eqb (depth_of sep it) d)
                    keyed).
      unfold keyed; rewrite map_snd_keyed; reflexivity.
    + intros x Hx; rewrite (Hkey x Hx); reflexivity.
  - intros x Hx.
    apply (Permutation_in _ (stable_sort_perm _ keyed)) in Hx.
    rewrite (Hkey x Hx); reflexivity.
Qed.

(** X16. Among nodes of equal depth the reverse converter keeps the
    order of its input: when it returns, the identifiers of the result
    are those of the depth-sorted items, and the items of every depth
    follow each other as the input mapping yields them. *)
Theorem X16_reverse_keeps_order_within_depth (mp : MP.t) (al : AL.t) :
  convert_mp_to_al mp = Ok al ->
  exists items,
    sort_by_depth mp (MP.nodes mp) = Ok items /\
    dict_keys (AL.nodes al) = dict_keys items /\
    StronglySorted (depth_le (MP.sep mp)) items /\
    forall d,
      filter (fun it => Nat.eqb (depth_of (MP.sep mp) it) d) items =
      filter (fun it => Nat.eqb (depth_of (MP.sep mp) it) d) (MP.nodes mp).
Proof.
  intros H; unfold convert_mp_to_al in H.
  apply bind_Ok_inv in H; destruct H as (items & Hs & H).
  exists items. split; [exact Hs|].
  apply sort_by_depth_Ok_inv in Hs; destruct Hs as (-> & _).
  destruct (rebuild_loop_Ok _ _ _ _ H) as (N & _); simpl in N.
  split; [rewrite N; apply rebuilt_keys|].
  split; [apply by_depth_sorted|].
  intros d; apply by_depth_stable.
Qed.

Lemma X16_reverse_keeps_order_within_depth_witness :
  exists items,
    sort_by_depth child_first_paths (MP.nodes child_first_paths) = Ok items /\
    dict_keys (AL.nodes two_node_tree) = dict_keys items.
Proof.
  destruct (X16_reverse_keeps_order_within_depth child_first_paths
              two_node_tree) as (items & H1 & H2 & _); [reflexivity|].
  exists items; split; assumption.
Defined.

(** * Missing parents in the reverse converter *)

Lemma rebuild_step_checked mp it al :
  MP.sep mp <> EmptyString ->
  parts_of (MP.sep mp) (MPNode.path (snd it)) <> [] ->
  last (parts_of (MP.sep mp) (MPNode.path (snd it))) EmptyString = fst it ->
  al_mem al (fst it) = false ->
  (exists al', rebuild_step mp it al = Ok al') \/
  (exists q, rebuild_step mp it al = Raise (UnknownParent q)).
Proof.
  intros Hsep Hne Hlast Hid.
  rewrite (rebuild_step_eq mp it al Hsep Hne Hlast).
  unfold AL.add_node, commit, AL.add_node_st.
  unfold al_mem in Hid; rewrite Hid.
  destruct (parent_from _) as [q|]; [|left; eexists; reflexivity].
  destruct (negb (str_mem (AL.nodes al) q));
    [right; exists q; reflexivity|left; eexists; reflexivity].
Qed.

Lemma rebuild_loop_checked mp l : forall al,
  MP.sep mp <> EmptyString ->
  NoDup (dict_keys (AL.nodes al) ++ dict_keys l) ->
  (forall it, In it l ->
     parts_of (MP.sep mp) (MPNode.path (snd it)) <> [] /\
     last (parts_of (MP.sep mp) (MPNode.path (snd it))) EmptyString = fst it) ->
  (exists al', foldM (rebuild_step mp) l al = Ok al') \/
  (exists q, foldM (rebuild_step mp) l al = Raise (UnknownParent q)).
Proof.
  induction l as [|x l IH]; intros al Hsep Hnd Hall;
    [left; eexists; reflexivity|].
  simpl in Hnd.
  assert (Hid : al_mem al (fst x) = false).
  { apply (dict_mem_false String.eqb_eq).
    apply NoDup_remove_2 in Hnd. intros Hin; apply Hnd, in_or_app; auto. }
  destruct (Hall x (or_introl eq_refl)) as (Hne & Hlast).
  cbn [foldM].
  destruct (rebuild_step_checked mp x al Hsep Hne Hlast Hid)
    as [(al1 & E)|(q & E)]; rewrite E; cbn [bind].
  - apply IH; [exact Hsep| |intros it Hit; apply Hall; right; exact Hit].
    destruct (rebuild_step_Ok_inv _ _ _ _ E) as (_ & _ & _ & N & _).
    rewrite N, dict_keys_app; simpl. rewrite <- app_assoc; exact Hnd.
  - right; exists q; reflexivity.
Qed.

(** X17. When the delimiter is not empty, the keys are unique and every
    path ends in its node's key, the reverse converter returns a tree or
    fails with UnknownParent, with no other failure; and it does fail
    with UnknownParent when the second-to-last segment of some path is
    not the key of any node. *)
Theorem X17_reverse_missing_parent (mp : MP.t) :
  MP.sep mp <> EmptyString ->
  NoDup (dict_keys (MP.nodes mp)) ->
  paths_end_in_key mp ->
  ((exists al, convert_mp_to_al mp = Ok al) \/
   (exists q, convert_mp_to_al mp = Raise (UnknownParent q))) /\
  (forall id m q,
     In (id, m) (MP.nodes mp) ->
     parent_from (parts_of (MP.sep mp) (MPNode.path m)) = Some q ->
     ~ In q (dict_keys (MP.nodes mp)) ->
     exists q', convert_mp_to_al mp = Raise (UnknownParent q')).
Proof.
  intros Hsep Hnd Hall.
  pose proof (by_depth_perm (MP.sep mp) (MP.nodes mp)) as HP.
  assert (Hres : (exists al, convert_mp_to_al mp = Ok al) \/
                 (exists q, convert_mp_to_al mp = Raise (UnknownParent q))).
  { unfold convert_mp_to_al; rewrite (sort_by_depth_eq _ _ Hsep); cbn [bind].
    apply rebuild_loop_checked; [exact Hsep| |].
    - simpl. eapply Permutation_NoDup; [|exact Hnd].
      apply Permutation_map, Permutation_sym; exact HP.
    - intros [id m] Hit; apply (Hall id m).
      eapply Permutation_in; [exact HP|exact Hit]. }
  split; [exact Hres|].
  intros id m q Hin Hq Hnq.
  destruct Hres as [(al & E)|Hraise]; [exfalso|exact Hraise].
  pose proof E as E'. unfold convert_mp_to_al in E'.
  rewrite (sort_by_depth_eq _ _ Hsep) in E'; cbn [bind] in E'.
  destruct (rebuild_loop_Ok _ _ _ _ E') as (N & O); simpl in N.
  assert (Hord : ordered (AL.nodes al)) by (apply O; constructor).
  apply Hnq.
  assert (Hk : In q (dict_keys (AL.nodes al))).
  { destruct al as [l]; simpl in *.
    apply (ordered_parent_present l id q Hord).
    exists (ALNode.mk id (Some q) (MPNode.name m)); split; [|reflexivity].
    unfold al_get; simpl.
    apply (dict_get_In String.eqb_eq); [apply ordered_NoDup; exact Hord|].
    rewrite N, <- Hq.
    change (In (rebuilt (MP.sep mp) (id, m))
              (map (rebuilt (MP.sep mp))
                 (by_depth (MP.sep mp) (MP.nodes mp)))).
    apply in_map.
    eapply Permutation_in; [apply Permutation_sym; exact HP|exact Hin]. }
  rewrite N, rebuilt_keys in Hk.
  eapply Permutation_in; [apply Permutation_map; exact HP|exact Hk].
Qed.

Lemma X17_reverse_missing_parent_witness :
  exists q',
    convert_mp_to_al (MP.mk "/" [("B", MPNode.mk "B" "/A/B" "b")]) =
      Raise (UnknownParent q').
Proof.
  destruct (X17_reverse_missing_parent
              (MP.mk "/" [("B", MPNode.mk "B" "/A/B" "b")])) as (_ & H).
  - discriminate.
  - simpl. constructor; [intros []|constructor].
  - intros id m [Hin|[]]; inversion Hin; subst; split;
      [discriminate|reflexivity].
  - apply (H "B" (MPNode.mk "B" "/A/B" "b") "A");
      [left; reflexivity|reflexivity|].
    simpl; intros [E|[]]; discriminate.
Defined.
